(** * VaporPlayer: playback sequencing, session state and library index

    A shallow embedding of the three source files of the repository:

    - [src/App.jsx] and [modern_react_music_player_drag_drop_local_files.jsx],
      the two versions of the React component [MusicPlayerApp] (module
      [Player], with the file-specific parts in [Player.App] and
      [Player.Modern]);
    - [server.mjs], the express server that indexes a music directory
      (module [Server]).

    JavaScript integers (indices, lengths) are modelled as [Z], times and
    volumes (doubles that the code only stores, compares and takes the
    minimum or maximum of) as rationals [Q], strings as [string].  The
    component state held in [useState] cells is a record and each handler is
    a function from the state of the render it closes over to the state
    after its setter calls have been applied. *)

From Stdlib Require Import ZArith QArith Qround Qminmax Qpower Bool List String
  Ascii DecimalString Lia Lqa.
Import ListNotations.

Set Warnings "-register-all".

Open Scope Z_scope.

(* ================================================================== *)
(** * The React front end *)
(* ================================================================== *)

Module Player.

(** ** Data *)

(** [{ title, artist, album, pictureUrl }], as [readTags] resolves it. *)
Record Meta := mkMeta {
  title : string;
  artist : string;
  album : string;
  pictureUrl : option string
}.

(** A playlist entry.  [src] and [meta] are absent for the entries fetched
    from the server; the further fields of the local entries ([size],
    [type], [quality]) are read by no handler modelled here. *)
Record Track := mkTrack {
  id : string;
  src : option string;
  name : string;
  meta : option Meta
}.

(** ['off' | 'one' | 'all'] *)
Inductive RepeatMode := Off | One | All.

Definition isOne (m : RepeatMode) : bool :=
  match m with One => true | _ => false end.

Definition isAll (m : RepeatMode) : bool :=
  match m with All => true | _ => false end.

Definition isOff (m : RepeatMode) : bool :=
  match m with Off => true | _ => false end.

(** ** Numbers

    The numbers of the program are binary64 values.  Where the code only
    stores, compares or takes the minimum or maximum of two numbers nothing
    is rounded and a rational stands for the number as it is; a product is
    rounded to the nearest binary64 value, ties to the even one. *)

(** For [x > 0], the exponent [e] with [2^e <= x < 2^(e+1)]. *)
Definition floorLog2 (x : Q) : Z :=
  let e0 := Z.log2 (Qnum x) - Z.log2 (Zpos (Qden x)) in
  if Qle_bool (2 ^ e0) x then e0 else e0 - 1.

(** The nearest integer, the even one of two that are equally near. *)
Definition roundHalfEven (s : Q) : Z :=
  let f := Qfloor s in
  match (s - inject_Z f ?= 1 # 2)%Q with
  | Lt => f
  | Gt => f + 1
  | Eq => if Z.even f then f else f + 1
  end.

(** The exponent of the spacing of the binary64 values around [x > 0]: 53
    significant bits, and no spacing finer than [2^-1074]. *)
Definition ulpExponent (x : Q) : Z := Z.max (floorLog2 x - 52) (-1074).

Definition roundPositive (x : Q) : Q :=
  (inject_Z (roundHalfEven (x / 2 ^ ulpExponent x)) * 2 ^ ulpExponent x)%Q.

(** The binary64 value nearest to [x], for [x] below the overflow
    threshold [2^1024] in size. *)
Definition roundBinary64 (x : Q) : Q :=
  if Qle_bool x 0
  then (if Qle_bool 0 x then 0 else - roundPositive (- x))%Q
  else roundPositive x.

(** [x] is a binary64 value: an integer of at most 53 bits times a power
    of two within the exponent range. *)
Definition binary64 (x : Q) : Prop :=
  exists m e : Z,
    Z.abs m < 2 ^ 53 /\ -1074 <= e <= 971 /\ (x == inject_Z m * 2 ^ e)%Q.

(** The largest binary64 value below [1]: [1 - 2^-53]. *)
Definition maxDraw : Q := 9007199254740991 # 9007199254740992.

(** What [Math.random()] can return: a binary64 value in [[0, 1)]. *)
Definition isDraw (u : Q) : Prop :=
  binary64 u /\ (0 <= u)%Q /\ (u < 1)%Q.

(** The [<audio>] element behind [audioRef]; only the requested playback
    position is modelled. *)
Record Audio := mkAudio {
  currentTime : Q
}.

(** The [useState] cells the two versions of the component share, and
    [audioRef.current].  [extra] holds the cells only one version has. *)
Record State (X : Type) := mkState {
  tracks : list Track;
  index : Z;
  playing : bool;
  shuffle : bool;
  repeatMode : RepeatMode;
  volume : Q;
  muted : bool;
  progress : Q;
  duration : Q;
  audioRef : option Audio;
  extra : X
}.

Arguments mkState {X}.
Arguments tracks {X}.
Arguments index {X}.
Arguments playing {X}.
Arguments shuffle {X}.
Arguments repeatMode {X}.
Arguments volume {X}.
Arguments muted {X}.
Arguments progress {X}.
Arguments duration {X}.
Arguments audioRef {X}.
Arguments extra {X}.

Section Component.
Context {X : Type}.

Definition setTracks (v : list Track) (s : State X) : State X :=
  mkState v (index s) (playing s) (shuffle s) (repeatMode s) (volume s)
          (muted s) (progress s) (duration s) (audioRef s) (extra s).

Definition setIndex (v : Z) (s : State X) : State X :=
  mkState (tracks s) v (playing s) (shuffle s) (repeatMode s) (volume s)
          (muted s) (progress s) (duration s) (audioRef s) (extra s).

Definition setPlaying (v : bool) (s : State X) : State X :=
  mkState (tracks s) (index s) v (shuffle s) (repeatMode s) (volume s)
          (muted s) (progress s) (duration s) (audioRef s) (extra s).

Definition setShuffle (v : bool) (s : State X) : State X :=
  mkState (tracks s) (index s) (playing s) v (repeatMode s) (volume s)
          (muted s) (progress s) (duration s) (audioRef s) (extra s).

Definition setRepeatMode (v : RepeatMode) (s : State X) : State X :=
  mkState (tracks s) (index s) (playing s) (shuffle s) v (volume s)
          (muted s) (progress s) (duration s) (audioRef s) (extra s).

Definition setProgress (v : Q) (s : State X) : State X :=
  mkState (tracks s) (index s) (playing s) (shuffle s) (repeatMode s)
          (volume s) (muted s) v (duration s) (audioRef s) (extra s).

Definition setDuration (v : Q) (s : State X) : State X :=
  mkState (tracks s) (index s) (playing s) (shuffle s) (repeatMode s)
          (volume s) (muted s) (progress s) v (audioRef s) (extra s).

Definition setAudio (v : option Audio) (s : State X) : State X :=
  mkState (tracks s) (index s) (playing s) (shuffle s) (repeatMode s)
          (volume s) (muted s) (progress s) (duration s) v (extra s).

Definition setExtra (v : X) (s : State X) : State X :=
  mkState (tracks s) (index s) (playing s) (shuffle s) (repeatMode s)
          (volume s) (muted s) (progress s) (duration s) (audioRef s) v.

(** [tracks.length] *)
Definition count (s : State X) : Z := Z.of_nat (List.length (tracks s)).

(** ** The sequencer: [nextIndex] and [prevIndex]

    Both files carry the same two closures.  [rnd k] is the value the
    [k]-th call of [Math.random()] made by the closure returns, a binary64
    value in [[0, 1)]. *)

(** [Math.floor(Math.random() * tracks.length)]: the product is the
    binary64 product, rounded before the floor is taken (so a draw of
    [0.3333333333333333] on three tracks gives [1], not [0]). *)
Definition randomIndex (u : Q) (len : Z) : Z :=
  Qfloor (roundBinary64 (u * inject_Z len)).

(** [do { r = ... } while (r === index); return r;]  The loop has no
    bound in the source; [fuel] bounds the number of draws and [None]
    stands for a loop that is still running when the fuel is spent. *)
Fixpoint drawOther (fuel : nat) (rnd : nat -> Q) (k : nat) (len idx : Z)
  : option Z :=
  match fuel with
  | O => None
  | S fuel' =>
      let r := randomIndex (rnd k) len in
      if r =? idx then drawOther fuel' rnd (S k) len idx else Some r
  end.

Definition nextIndex (fuel : nat) (rnd : nat -> Q) (s : State X) : option Z :=
  if isOne (repeatMode s) then Some (index s)
  else if shuffle s && (1 <? count s) then
    drawOther fuel rnd 0 (count s) (index s)
  else if index s + 1 <? count s then Some (index s + 1)
  else Some (if isAll (repeatMode s) then 0 else index s).

Definition prevIndex (fuel : nat) (rnd : nat -> Q) (s : State X) : option Z :=
  if shuffle s && (1 <? count s) then
    drawOther fuel rnd 0 (count s) (index s)
  else Some (if 0 <? index s then index s - 1
             else if isAll (repeatMode s) then count s - 1 else 0).

(** [onEnd], the listener of the audio element's [ended] event.  It is
    registered by an effect with the dependencies
    [[index, repeatMode, tracks.length]], so the listener at work is the
    one of the last render [r] after which the effect ran: it closes over
    [index], [repeatMode], [shuffle] and [tracks] of [r], and so does the
    [nextIndex] it calls.  Its setter calls act on the state [s] at the
    time of the event. *)
Definition onEnd (fuel : nat) (rnd : nat -> Q) (r s : State X)
  : option (State X) :=
  match nextIndex fuel rnd r with
  | None => None
  | Some next =>
      Some (if (next =? index r) && isOff (repeatMode r)
            then setPlaying false s
            else setPlaying true (setIndex next s))
  end.

(** What the dependencies of the effect keep equal between the render [r]
    of the listener and the state [s]; the shuffle flag is not among
    them. *)
Definition listenerRender (r s : State X) : Prop :=
  index r = index s /\ repeatMode r = repeatMode s /\ count r = count s.

(** The skip buttons: [onClick={() => setIndex(prevIndex())}] and
    [onClick={() => setIndex(nextIndex())}]. *)
Definition clickPrev (fuel : nat) (rnd : nat -> Q) (s : State X)
  : option (State X) :=
  option_map (fun i => setIndex i s) (prevIndex fuel rnd s).

Definition clickNext (fuel : nat) (rnd : nat -> Q) (s : State X)
  : option (State X) :=
  option_map (fun i => setIndex i s) (nextIndex fuel rnd s).

(** The repeat button:
    [setRepeatMode((m) => (m === "off" ? "one" : m === "one" ? "all" : "off"))]. *)
Definition clickRepeat (s : State X) : State X :=
  setRepeatMode (match repeatMode s with
                 | Off => One
                 | One => All
                 | All => Off
                 end) s.

(** ** Seeking *)

(** [setCurrentTime(val)], the [onChange] handler of the seek slider. *)
Definition setCurrentTime (val : Q) (s : State X) : State X :=
  match audioRef s with
  | None => s
  | Some _ => setProgress val (setAudio (Some (mkAudio val)) s)
  end.

(** The seek slider is [<input type="range" min={0}
    max={Math.max(1, duration)} ... />]: the values it hands to
    [setCurrentTime] lie between its [min] and [max]. *)
Definition seekSliderMin : Q := 0%Q.
Definition seekSliderMax (s : State X) : Q := Qmax 1 (duration s).

Definition seekSliderValue (s : State X) (val : Q) : Prop :=
  (seekSliderMin <= val)%Q /\ (val <= seekSliderMax s)%Q.

(** ** The rest of the controls *)

Definition setVolume (v : Q) (s : State X) : State X :=
  mkState (tracks s) (index s) (playing s) (shuffle s) (repeatMode s) v
          (muted s) (progress s) (duration s) (audioRef s) (extra s).

Definition setMuted (v : bool) (s : State X) : State X :=
  mkState (tracks s) (index s) (playing s) (shuffle s) (repeatMode s)
          (volume s) v (progress s) (duration s) (audioRef s) (extra s).

(** [const current = tracks[index]]: [undefined] for an index that is
    negative or past the end. *)
Definition current (s : State X) : option Track :=
  if index s <? 0 then None else nth_error (tracks s) (Z.to_nat (index s)).

(** A playlist row: [onClick={() => { setIndex(i); setPlaying(true); }}]. *)
Definition clickRow (i : Z) (s : State X) : State X :=
  setPlaying true (setIndex i s).

(** The play, shuffle and mute buttons: [setPlaying((p) => !p)],
    [setShuffle((s) => !s)], [setMuted((m) => !m)]. *)
Definition clickPlay (s : State X) : State X :=
  setPlaying (negb (playing s)) s.

Definition clickShuffle (s : State X) : State X :=
  setShuffle (negb (shuffle s)) s.

Definition clickMute (s : State X) : State X :=
  setMuted (negb (muted s)) s.

(** What the volume effect writes to the element:
    [audio.volume = muted ? 0 : volume]. *)
Definition outputVolume (s : State X) : Q :=
  if muted s then 0%Q else volume s.

(** The selection points into the playlist, or sits at [0] on an empty
    one. *)
Definition wellSelected (s : State X) : Prop :=
  (count s = 0 /\ index s = 0) \/ (0 <= index s < count s).

End Component.

(** ** Tag reading: [readTags]

    [readTags] wraps the callback interface of the tag library in a
    promise.  What the library does with the two callbacks, and whether the
    call itself throws, is outside the repository: it is given as the
    sequence of events the call produces, in the order they happen. *)

(** [tags.picture]: [{ data, format }], either of which may be missing. *)
Record Picture := mkPicture {
  data : option (list N);
  format : option string
}.

(** The [tags] object handed to [onSuccess]. *)
Record Tags := mkTags {
  tagTitle : option string;
  tagArtist : option string;
  tagAlbum : option string;
  tagPicture : option Picture
}.

(** The [File] objects of the browser; [fileType] is its MIME type. *)
Record File := mkFile {
  fileName : string;
  fileType : string
}.

Inductive ReadEvent :=
| CallsOnSuccess (tags : Tags)   (* the library calls [onSuccess({ tags })] *)
| CallsOnError                   (* the library calls [onError(...)] *)
| Throws.                        (* [read] throws, into the [catch] block *)

Inductive Promise (A : Type) :=
| Pending
| Fulfilled (v : A)
| Rejected.

Arguments Pending {A}.
Arguments Fulfilled {A}.
Arguments Rejected {A}.

(** The [resolve] function of a promise: the first call settles it, later
    calls are ignored. *)
Definition resolve {A} (v : A) (p : Promise A) : Promise A :=
  match p with
  | Pending => Fulfilled v
  | _ => p
  end.

(** [a || b] on a string that may be [undefined]: [b] replaces a missing or
    empty [a]. *)
Definition orString (a : option string) (b : string) : string :=
  match a with
  | Some s => if (s =? "")%string then b else s
  | None => b
  end.

Definition truthyString (a : option string) : bool :=
  match a with
  | Some s => negb (s =? "")%string
  | None => false
  end.

Section ReadTags.
(** [URL.createObjectURL(new Blob([new Uint8Array(data)], { type: format }))] *)
Variable createObjectURL : list N -> string -> string.

Definition onSuccess (file : File) (tags : Tags) : Meta :=
  let pictureUrl :=
    match tagPicture tags with
    | Some pic =>
        match data pic, format pic with
        | Some d, Some f =>
            if truthyString (Some f) then Some (createObjectURL d f) else None
        | _, _ => None
        end
    | None => None
    end in
  mkMeta (orString (tagTitle tags) (fileName file))
         (orString (tagArtist tags) "Unknown Artist")
         (orString (tagAlbum tags) "")
         pictureUrl.

(** The object both [onError] and the [catch] block resolve with. *)
Definition onError (file : File) : Meta :=
  mkMeta (fileName file) "" "" None.

Definition readStep (file : File) (p : Promise Meta) (e : ReadEvent)
  : Promise Meta :=
  match e with
  | CallsOnSuccess tags => resolve (onSuccess file tags) p
  | CallsOnError => resolve (onError file) p
  | Throws => resolve (onError file) p
  end.

(** The promise [readTags(file)] returns, after the library has produced
    [events]. *)
Definition readTags (file : File) (events : list ReadEvent) : Promise Meta :=
  fold_left (readStep file) events Pending.

End ReadTags.

(** What the playlist rows and the now-playing card show:
    [t.meta?.title || t.name] and [t.meta?.artist || "Unknown Artist"]. *)
Definition shownTitle (t : Track) : string :=
  orString (option_map title (meta t)) (name t).

Definition shownArtist (t : Track) : string :=
  orString (option_map artist (meta t)) "Unknown Artist".

(** [findIndex]: the position of the first element that satisfies [f],
    [-1] when there is none. *)
Fixpoint findIndexFrom {A} (f : A -> bool) (l : list A) (i : Z) : Z :=
  match l with
  | [] => -1
  | x :: l' => if f x then i else findIndexFrom f l' (i + 1)
  end.

Definition findIndex {A} (f : A -> bool) (l : list A) : Z :=
  findIndexFrom f l 0.

(** ** The time label: [fmt]

    [fmt] takes a number of seconds; [None] stands for the values
    [isFinite] refuses.  The three fields are computed on the exact value:
    [%] is exact on doubles, and a double in [[0, 2^53)] divided by [60] or
    [3600] never rounds onto an integer it lies below, so in that range the
    floors are those of the doubles. *)

(** [a % b], the remainder that takes the sign of [a]. *)
Definition truncQ (x : Q) : Z :=
  if Qle_bool 0 x then Qfloor x else Qceiling x.

Definition remQ (a b : Q) : Q := (a - b * inject_Z (truncQ (a / b)))%Q.

(** [Math.floor(t % 60)], [Math.floor((t / 60) % 60)] and
    [Math.floor(t / 3600)]. *)
Definition fmtSeconds (t : Q) : Z := Qfloor (remQ t 60).
Definition fmtMinutes (t : Q) : Z := Qfloor (remQ (t / 60) 60).
Definition fmtHours (t : Q) : Z := Qfloor (t / 3600).

(** [n.toString()] for an integer below [10^21] in size. *)
Definition toString (n : Z) : string :=
  DecimalString.NilZero.string_of_int (Z.to_int n).

Fixpoint repeatChar (c : ascii) (n : nat) : string :=
  match n with
  | O => EmptyString
  | S n' => String c (repeatChar c n')
  end.

(** [str.padStart(n, "0")] *)
Definition padStart0 (n : nat) (str : string) : string :=
  (repeatChar "0" (n - String.length str) ++ str)%string.

Definition fmt (t : option Q) : string :=
  match t with
  | None => "0:00"
  | Some t =>
      let s := padStart0 2 (toString (fmtSeconds t)) in
      let m := toString (fmtMinutes t) in
      let h := fmtHours t in
      if 0 <? h
      then (toString h ++ ":" ++ padStart0 2 m ++ ":" ++ s)%string
      else (m ++ ":" ++ s)%string
  end.

(** [str.toLowerCase()], on code units below 256: the letters [A]-[Z] and
    the capital letters of Latin-1 move up by 32. *)
Definition toLowerChar (c : ascii) : ascii :=
  let n := nat_of_ascii c in
  if ((65 <=? n) && (n <=? 90) ||
      (192 <=? n) && (n <=? 222) && negb (n =? 215))%nat
  then ascii_of_nat (n + 32) else c.

Fixpoint toLowerCase (s : string) : string :=
  match s with
  | EmptyString => EmptyString
  | String c s' => String (toLowerChar c) (toLowerCase s')
  end.

(** ** [src/App.jsx] *)

Module App.

(** [library] is the artist / album tree built from the relative paths of
    the added files; [bgColor] the colour taken from the cover art. *)
Record Extra := mkExtra {
  library : list (string * list (string * list Track));
  bgColor : string
}.

Definition St := State Extra.

(** The initial values of the [useState] cells, with the audio element
    mounted. *)
Definition initial : St :=
  mkState [] 0 false false Off (9 # 10) false 0%Q 0%Q
          (Some (mkAudio 0%Q)) (mkExtra [] "#0a0f29").

Definition removeTrack (i : string) (s : St) : St :=
  setTracks (filter (fun t => negb (id t =? i)%string) (tracks s)) s.

Definition clearAll (s : St) : St :=
  setDuration 0%Q
    (setProgress 0%Q
      (setPlaying false
        (setIndex 0
          (setExtra (mkExtra [] (bgColor (extra s)))
            (setTracks [] s))))).

(** A track of the library tree:
    [const i = tracks.findIndex((t) => t.id === track.id);
     if (i >= 0) { setIndex(i); setPlaying(true); }]. *)
Definition clickLibraryTrack (track : Track) (s : St) : St :=
  let i := findIndex (fun t => (id t =? id track)%string) (tracks s) in
  if 0 <=? i then setPlaying true (setIndex i s) else s.

End App.

(** ** [modern_react_music_player_drag_drop_local_files.jsx] *)

Module Modern.

Record Extra := mkExtra {
  seeking : bool
}.

Definition St := State Extra.

Definition initial : St :=
  mkState [] 0 false false Off (9 # 10) false 0%Q 0%Q
          (Some (mkAudio 0%Q)) (mkExtra false).

Definition removeTrack (i : string) (s : St) : St :=
  let prev := tracks s in
  let idx := findIndex (fun t => (id t =? i)%string) prev in
  let next := filter (fun t => negb (id t =? i)%string) prev in
  let s' :=
    if idx =? index s then
      (* if removing current track, move sensibly *)
      let newIndex := Z.min idx (Z.of_nat (List.length next) - 1) in
      setPlaying false (setIndex (Z.max 0 newIndex) s)
    else if idx <? index s then
      setIndex (Z.max 0 (index s - 1)) s
    else s in
  setTracks next s'.

Definition clearAll (s : St) : St :=
  setDuration 0%Q
    (setProgress 0%Q
      (setPlaying false
        (setIndex 0
          (setTracks [] s)))).

(** The media-session [seekto] handler:
    [audio.currentTime = Math.min(Math.max(0, d.seekTime || 0), duration || 0)]. *)
Definition seekTo (seekTime : Q) (s : St) : St :=
  match audioRef s with
  | None => s
  | Some _ =>
      setAudio (Some (mkAudio (Qmin (Qmax 0 seekTime) (duration s)))) s
  end.

(** *** Presses in a row

    In this file the skip buttons are rendered by the component itself on
    every render, so each click runs the handler of the render that
    followed the click before it: a press acts on the state the press
    before it has left.  (In [src/App.jsx] the buttons sit in a card that
    stays mounted with its old handlers while it animates out, and presses
    within that time do not add up.) *)

(** The next-track button pressed once for every random source of
    [rnds], in turn. *)
Fixpoint clickNextAll (fuel : nat) (rnds : list (nat -> Q)) (s : St)
  : option St :=
  match rnds with
  | [] => Some s
  | rnd :: rnds' =>
      match clickNext fuel rnd s with
      | None => None
      | Some s' => clickNextAll fuel rnds' s'
      end
  end.

(** The next-track button and then the previous-track button, and the
    other way round. *)
Definition clickNextPrev (fuel : nat) (rnd rnd' : nat -> Q) (s : St)
  : option St :=
  match clickNext fuel rnd s with
  | None => None
  | Some s1 => clickPrev fuel rnd' s1
  end.

Definition clickPrevNext (fuel : nat) (rnd rnd' : nat -> Q) (s : St)
  : option St :=
  match clickPrev fuel rnd s with
  | None => None
  | Some s1 => clickNext fuel rnd' s1
  end.

(** *** Keyboard shortcuts: [onKey] *)

(** The fields of the [keydown] event the handler reads. *)
Record KeyEvent := mkKeyEvent {
  targetTag : option string;  (* [e.target?.tagName] *)
  code : string;
  key : string
}.

Definition isInput (e : KeyEvent) : bool :=
  match targetTag e with
  | Some tag => (tag =? "INPUT")%string
  | None => false
  end.

(** [if (a) a.currentTime = Math.min((a.currentTime || 0) + 5, duration)];
    [duration] is the value of the render the handler closes over. *)
Definition arrowRight (duration : Q) (s : St) : St :=
  match audioRef s with
  | None => s
  | Some a => setAudio (Some (mkAudio (Qmin (currentTime a + 5) duration))) s
  end.

(** [if (a) a.currentTime = Math.max((a.currentTime || 0) - 5, 0)] *)
Definition arrowLeft (s : St) : St :=
  match audioRef s with
  | None => s
  | Some a => setAudio (Some (mkAudio (Qmax (currentTime a - 5) 0))) s
  end.

(** The handler runs its tests one after the other.  [nextIndex],
    [prevIndex] and [duration] are those of the render [s]; the functional
    updates act on the state the earlier tests have left.  The step of the
    volume keys is [0.05]. *)
Definition onKey (fuel : nat) (rnd : nat -> Q) (e : KeyEvent) (s : St)
  : option St :=
  if isInput e then Some s
  else
    let k := toLowerCase (key e) in
    let s1 := if (code e =? "Space")%string
              then setPlaying (negb (playing s)) s else s in
    match (if (k =? "n")%string
           then option_map (fun i => setIndex i s1) (nextIndex fuel rnd s)
           else Some s1) with
    | None => None
    | Some s2 =>
        match (if (k =? "p")%string
               then option_map (fun i => setIndex i s2) (prevIndex fuel rnd s)
               else Some s2) with
        | None => None
        | Some s3 =>
            let s4 := if (key e =? "ArrowRight")%string
                      then arrowRight (duration s) s3 else s3 in
            let s5 := if (key e =? "ArrowLeft")%string
                      then arrowLeft s4 else s4 in
            let s6 := if (key e =? "+")%string
                      then setVolume (Qmin 1 (volume s5 + (5 # 100))) s5
                      else s5 in
            let s7 := if (key e =? "-")%string
                      then setVolume (Qmax 0 (volume s6 - (5 # 100))) s6
                      else s6 in
            let s8 := if (k =? "s")%string
                      then setShuffle (negb (shuffle s7)) s7 else s7 in
            let s9 := if (k =? "r")%string then clickRepeat s8 else s8 in
            Some s9
        end
    end.

(** *** Adding files: [addFiles] *)

(** A file handed to [addFiles], with what the tag library does when
    [readTags] is called on it. *)
Record Upload := mkUpload {
  upFile : File;
  upEvents : list ReadEvent
}.

Section AddFiles.
(** [URL.createObjectURL] on the picture of a tag and on a file, and the
    successive results of [crypto.randomUUID()] within one call. *)
Variable createObjectURL : list N -> string -> string.
Variable fileURL : File -> string.
Variable randomUUID : nat -> string.

(** The loop [for (const file of files)], with [toAdd] as collected so
    far.  [await readTags(file)] resumes only once the promise has settled:
    [None] stands for a call that never gets past it. *)
Fixpoint collect (files : list Upload) (toAdd : list Track)
  : option (list Track) :=
  match files with
  | [] => Some toAdd
  | u :: files' =>
      if negb (String.prefix "audio" (fileType (upFile u)))
      then collect files' toAdd
      else
        match readTags createObjectURL (upFile u) (upEvents u) with
        | Fulfilled m =>
            collect files'
              (toAdd ++ [mkTrack (randomUUID (List.length toAdd))
                                 (Some (fileURL (upFile u)))
                                 (fileName (upFile u)) (Some m)])
        | Pending => None
        | Rejected => None
        end
  end.

(** [if (toAdd.length) setTracks((prev) => [...prev, ...toAdd])] *)
Definition addFiles (files : list Upload) (s : St) : option St :=
  match collect files [] with
  | None => None
  | Some toAdd =>
      Some (match toAdd with
            | [] => s
            | _ :: _ => setTracks (tracks s ++ toAdd) s
            end)
  end.

End AddFiles.

End Modern.

End Player.

(* ================================================================== *)
(** * The library server, [server.mjs] *)
(* ================================================================== *)

Module Server.

(** A path, as the list of its segments: [path.join(dir, f)] adds a segment
    and [path.relative] drops the common prefix. *)
Definition Path := list string.

Definition pathJoin (dir : Path) (f : string) : Path := dir ++ [f].

Fixpoint pathRelative (from to : Path) : Path :=
  match from, to with
  | [], _ => to
  | a :: from', b :: to' =>
      if (a =? b)%string then pathRelative from' to'
      else map (fun _ => ".."%string) from ++ to
  | _ :: _, [] => map (fun _ => ".."%string) from
  end.

Definition pathString (p : Path) : string := String.concat "/" p.

(** What [fs.readdirSync] and [fs.statSync(...).isDirectory()] see below a
    directory: plain files and directories with their own entries. *)
Inductive Entry :=
| File (f : string)
| Dir (f : string) (entries : list Entry).

(** The objects pushed on [tracks]. *)
Record Track := mkTrack {
  id : string;
  name : string;
  path : Path;
  relPath : Path
}.

(** The module-level [tracks] array, and the number of identifiers
    [uuidv4()] has handed out so far. *)
Record State := mkState {
  tracks : list Track;
  uuidCount : nat
}.

(** ** The filter [f.match(/\\.(mp3|flac|wav|aac|ogg)$/i)]

    In the regular-expression literal [\\] is an escaped backslash and the
    [.] after it is the wildcard: the pattern is a backslash, any one
    character that is not a line terminator, one of the five extensions
    (letters compared without case, flag [i]), and the end of the name.
    A [string] stands for the UTF-16 code units of a name, taken below 256;
    of these the line terminators are LF and CR, and only the ASCII letters
    have a case the flag [i] can fold onto the letters of the pattern. *)

Definition backslash : ascii := "\"%char.

Definition isLineTerminator (c : ascii) : bool :=
  (c =? "010")%char || (c =? "013")%char.

Definition toUpper (c : ascii) : ascii :=
  let n := nat_of_ascii c in
  if ((97 <=? n) && (n <=? 122))%nat then ascii_of_nat (n - 32) else c.

Fixpoint eqbIgnoreCase (a b : string) : bool :=
  match a, b with
  | EmptyString, EmptyString => true
  | String x a', String y b' =>
      (toUpper x =? toUpper y)%char && eqbIgnoreCase a' b'
  | _, _ => false
  end.

Definition extensions : list string :=
  ["mp3"; "flac"; "wav"; "aac"; "ogg"]%string.

(** A match that starts at the first character of [s]. *)
Definition matchHere (s : string) : bool :=
  match s with
  | String b (String c rest) =>
      (b =? backslash)%char && negb (isLineTerminator c) &&
      existsb (eqbIgnoreCase rest) extensions
  | _ => false
  end.

(** [f.match(re)] is truthy when the pattern matches at some position. *)
Fixpoint matchAudio (s : string) : bool :=
  matchHere s ||
  match s with
  | EmptyString => false
  | String _ s' => matchAudio s'
  end.

Section Index.
(** The successive results of [uuidv4()]. *)
Variable uuidv4 : nat -> string.

Definition push (t : Track) (s : State) : State :=
  mkState (tracks s ++ [t]) (uuidCount s).

(** One iteration of the loop [for (const f of files)] of [walk(dir)]. *)
Fixpoint walkEntry (baseDir dir : Path) (e : Entry) (s : State) {struct e}
  : State :=
  match e with
  | Dir f entries =>
      let fullPath := pathJoin dir f in
      fold_left (fun s' e' => walkEntry baseDir fullPath e' s') entries s
  | File f =>
      let fullPath := pathJoin dir f in
      if matchAudio f then
        push (mkTrack (uuidv4 (uuidCount s)) f fullPath
                      (pathRelative baseDir fullPath))
             (mkState (tracks s) (S (uuidCount s)))
      else s
  end.

(** [walk(dir)], [entries] being what [dir] holds. *)
Definition walk (baseDir dir : Path) (entries : list Entry) (s : State)
  : State :=
  fold_left (fun s' e => walkEntry baseDir dir e s') entries s.

Definition indexLibrary (baseDir : Path) (entries : list Entry) (s : State)
  : State :=
  walk baseDir baseDir entries (mkState [] (uuidCount s)).

End Index.

(** ** The two routes *)

Inductive Json :=
| JString (s : string)
| JArray (l : list Json)
| JObject (fields : list (string * Json)).

(** [res.json] of one element of [tracks]: its own properties, in the
    order the object literal lists them. *)
Definition trackJson (t : Track) : Json :=
  JObject [("id", JString (id t));
           ("name", JString (name t));
           ("path", JString (pathString (path t)));
           ("relPath", JString (pathString (relPath t)))]%string.

(** What a handler answers: [res.json(j)]; the file at [p], which
    [res.sendFile] has accepted and hands to the file stream;
    [res.status(code).send(body)]; or the error response express makes of an
    error that [res.sendFile] throws or passes to [next], with its status
    code. *)
Inductive Response :=
| SendJson (j : Json)
| SendFile (p : Path)
| Status (code : Z) (body : string)
| Fails (code : Z).

(** [app.get("/api/library", ...)] *)
Definition getLibrary (s : State) : Response :=
  SendJson (JArray (map trackJson (tracks s))).

(** ** [res.sendFile(track.path)]

    The route passes no options, so there is no [root] and [dotfiles] is
    ["ignore"].  On the paths of a POSIX system (the only ones where a file
    name holds the backslash the filter asks for) express and its [send]
    module test the path in this order:
    - a path that does not start with [/] makes [res.sendFile] throw a
      [TypeError], which the default error handler answers with 500;
    - a NUL character in the path is answered with 400;
    - a [..] between separators, where the separators of the test
      [/(?:^|[\\/])\.\.(?:[\\/]|$)/] are the slash and the backslash,
      is answered with 403;
    - a segment of more than one character that starts with a dot is
      answered with 404;
    - any other path goes to the file stream. *)

Definition nul : ascii := "000"%char.

Fixpoint hasChar (c : ascii) (s : string) : bool :=
  match s with
  | EmptyString => false
  | String x s' => (x =? c)%char || hasChar c s'
  end.

(** [s.split(c)] *)
Fixpoint splitOn (c : ascii) (s : string) : list string :=
  match s with
  | EmptyString => [EmptyString]
  | String x s' =>
      if (x =? c)%char then EmptyString :: splitOn c s'
      else match splitOn c s' with
           | piece :: pieces => String x piece :: pieces
           | [] => [String x EmptyString]
           end
  end.

(** [path.isAbsolute(p)] *)
Definition isAbsolute (p : Path) : bool :=
  match pathString p with
  | String c _ => (c =? "/")%char
  | EmptyString => false
  end.

(** The test for [..] on one segment between slashes. *)
Definition isUp (seg : string) : bool :=
  existsb (String.eqb "..") (splitOn backslash seg).

(** [part.length > 1 && part[0] === '.'] of [containsDotFile]. *)
Definition isDotFile (seg : string) : bool :=
  match seg with
  | String c (String _ _) => (c =? ".")%char
  | _ => false
  end.

Definition sendFile (p : Path) : Response :=
  if negb (isAbsolute p) then Fails 500
  else if existsb (hasChar nul) p then Fails 400
  else if existsb isUp p then Fails 403
  else if existsb isDotFile p then Fails 404
  else SendFile p.

(** [app.get("/api/stream/:id", ...)] *)
Definition getStream (i : string) (s : State) : Response :=
  match find (fun t => (id t =? i)%string) (tracks s) with
  | None => Status 404 "Not found"
  | Some track => sendFile (path track)
  end.

(** A GET request, by the non-empty segments of its path.  The router of
    express compares the fixed segments of a route without case and binds
    [:id] to one segment; a path no route matches gets its 404. *)
Definition get (url : list string) (s : State) : Response :=
  match url with
  | [a; b] =>
      if eqbIgnoreCase a "api" && eqbIgnoreCase b "library"
      then getLibrary s
      else Status 404 "Cannot GET"
  | [a; b; i] =>
      if eqbIgnoreCase a "api" && eqbIgnoreCase b "stream"
      then getStream i s
      else Status 404 "Cannot GET"
  | _ => Status 404 "Cannot GET"
  end.

(** A track whose name is one of [names] and passes the filter. *)
Definition pushedFrom (names : list string) (t : Track) : Prop :=
  In (name t) names /\ matchAudio (name t) = true.

(** What a walk below [dir] over files called [names] does to the state:
    it adds one track for every name the filter accepts, in order, each
    with the next identifier, a path below [dir] that ends in the name, and
    that path taken relative to [baseDir]. *)
Definition walked (uuidv4 : nat -> string) (baseDir dir : Path)
    (names : list string) (s s' : State) : Prop :=
  exists added,
    tracks s' = tracks s ++ added /\
    uuidCount s' = (uuidCount s + List.length added)%nat /\
    map name added = filter matchAudio names /\
    map id added = map uuidv4 (seq (uuidCount s) (List.length added)) /\
    Forall (fun t =>
              (exists rest, rest <> [] /\ path t = dir ++ rest /\
                            last rest ""%string = name t) /\
              relPath t = pathRelative baseDir (path t)) added.

(** The state of the module before [indexLibrary(MUSIC_DIR)] runs. *)
Definition initial : State := mkState [] 0.

(** The property names of a serialized object. *)
Definition fieldNames (j : Json) : list string :=
  match j with
  | JObject fields => map fst fields
  | _ => []
  end.

(** Induction on a directory tree, with the hypothesis for every entry of a
    directory. *)
Section EntryInduction.
Variable P : Entry -> Prop.
Hypothesis HFile : forall f, P (File f).
Hypothesis HDir : forall f entries, Forall P entries -> P (Dir f entries).

Fixpoint Entry_tree_ind (e : Entry) : P e :=
  match e with
  | File f => HFile f
  | Dir f entries =>
      HDir f entries
        ((fix all (l : list Entry) : Forall P l :=
            match l with
            | [] => Forall_nil P
            | x :: l' => Forall_cons x (Entry_tree_ind x) (all l')
            end) entries)
  end.

End EntryInduction.

(** The names of the plain files below an entry. *)
Fixpoint fileNames (e : Entry) : list string :=
  match e with
  | File f => [f]
  | Dir _ entries => flat_map fileNames entries
  end.

Fixpoint containsBackslash (s : string) : bool :=
  match s with
  | EmptyString => false
  | String c s' => (c =? backslash)%char || containsBackslash s'
  end.

(** The names of the files and of the directories below an entry. *)
Fixpoint entryNames (e : Entry) : list string :=
  match e with
  | File f => [f]
  | Dir f entries => f :: flat_map entryNames entries
  end.

(** A name a directory of a POSIX system can hold (not empty, without a
    slash and without NUL) that [res.sendFile] lets through when it is a
    segment of the path. *)
Definition servable (seg : string) : bool :=
  negb (seg =? "")%string && negb (hasChar "/" seg) &&
  negb (hasChar nul seg) && negb (isUp seg) && negb (isDotFile seg).

(** An absolute, normalized directory path whose segments [res.sendFile]
    lets through: the empty segment before the first slash, then names. *)
Definition servableDir (dir : Path) : bool :=
  match dir with
  | first :: names => (first =? "")%string && forallb servable names
  | [] => false
  end.

(** The path of [t] is [dir] followed by segments taken from [names]. *)
Definition below (dir : Path) (names : list string) (t : Track) : Prop :=
  exists rest,
    path t = dir ++ rest /\ rest <> [] /\ Forall (fun seg => In seg names) rest.

End Server.

(* ================================================================== *)
(** * Sample inputs *)
(* ================================================================== *)

Module Samples.
Import Player.

Definition trackA : Track := mkTrack "a" (Some "blob:a"%string) "a.mp3" None.
Definition trackB : Track := mkTrack "b" (Some "blob:b"%string) "b.flac" None.
Definition trackC : Track := mkTrack "c" (Some "blob:c"%string) "c.wav" None.

(** Three tracks in the playlist of either version of the component, with
    the selection at [i]. *)
Definition three {X} (init : State X) (i : Z) (sh : bool) (m : RepeatMode)
  : State X :=
  setRepeatMode m (setShuffle sh (setIndex i
    (setTracks [trackA; trackB; trackC] init))).

(** A random source that always returns [u]. *)
Definition always (u : Q) : nat -> Q := fun _ => u.

(** The binary64 value [0.3333333333333333]. *)
Definition third : Q := 6004799503160661 # 18014398509481984.

(** A random source that returns [1/2] twice and [0] from then on. *)
Definition halfHalfZero : nat -> Q :=
  fun k => if (k <? 2)%nat then (1 # 2) else 0%Q.

(** A music directory with ordinary file names. *)
Definition ordinaryDir : list Server.Entry :=
  [Server.File "song.mp3";
   Server.Dir "album" [Server.File "b.FLAC"; Server.File "cover.jpg"];
   Server.File "c.ogg"].

(** A music directory with one name the filter accepts. *)
Definition oddDir : list Server.Entry :=
  [Server.File "song.mp3"; Server.Dir "album" [Server.File "b\.flac"]].

Definition musicDir : Server.Path := [""; "music"]%string.

Definition uuids : nat -> string := fun _ => "1b9d6bcd"%string.

(** A supply of identifiers that never repeats: the letter [u] followed by
    [n] times the letter [x] for the [n]-th call. *)
Fixpoint xs (n : nat) : string :=
  match n with
  | O => EmptyString
  | S n' => String "x" (xs n')
  end.

Definition distinctUuids (n : nat) : string := String "u" (xs n).

(** A music directory with two names the filter accepts. *)
Definition twoOddDir : list Server.Entry :=
  [Server.File "a\.mp3"; Server.File "readme.txt";
   Server.Dir "live" [Server.File "b\.ogg"]].

(** A music directory whose only accepted name lies in a hidden
    directory, and one whose accepted name starts with two dots. *)
Definition hiddenDir : list Server.Entry :=
  [Server.Dir ".cache" [Server.File "a\.mp3"]].

Definition upDir : list Server.Entry := [Server.File "..\.mp3"].

(** What [MUSIC_DIR=music] makes of the base directory. *)
Definition relativeDir : Server.Path := ["music"]%string.

End Samples.

(* ================================================================== *)
(** * Properties of the sequencer *)
(* ================================================================== *)

Section SequencerFacts.
Import Player.
Context {X : Type}.
Implicit Types (s : State X) (rnd : nat -> Q).

Lemma two_neq_0 : ~ (2 == 0)%Q.
Proof. discriminate. Qed.

Lemma pow2_pos (e : Z) : (0 < 2 ^ e)%Q.
Proof. apply Qpower_0_lt. reflexivity. Qed.

(** [floorLog2] does not overshoot. *)
Lemma floorLog2_le (x : Q) : (0 < x)%Q -> (2 ^ floorLog2 x <= x)%Q.
Proof.
  intros Hx. unfold floorLog2. cbv zeta.
  set (a := Z.log2 (Qnum x)). set (b := Z.log2 (Z.pos (Qden x))).
  destruct (Qle_bool (2 ^ (a - b)) x) eqn:E.
  - apply Qle_bool_imp_le. exact E.
  - clear E.
    assert (Hn : 0 < Qnum x).
    { destruct x as [n d]. unfold Qlt in Hx. simpl in *. lia. }
    assert (Ha : 0 <= a) by apply Z.log2_nonneg.
    assert (Hb : 0 <= b) by apply Z.log2_nonneg.
    destruct (Z.log2_spec (Qnum x) Hn) as [HA _]. fold a in HA.
    destruct (Z.log2_spec (Z.pos (Qden x)) ltac:(lia)) as [_ HB]. fold b in HB.
    replace (a - b - 1) with (a - (b + 1)) by lia.
    rewrite Qpower_minus by exact two_neq_0.
    change 2%Q with (inject_Z 2).
    rewrite <- !Zpower_Qpower by lia.
    apply Qle_shift_div_r.
    + change 0%Q with (inject_Z 0). rewrite <- Zlt_Qlt.
      apply Z.pow_pos_nonneg; lia.
    + replace (Z.succ b) with (b + 1) in HB by lia.
      assert (H2a : 0 < 2 ^ a) by (apply Z.pow_pos_nonneg; lia).
      destruct x as [n d]. unfold Qle, Qmult, inject_Z. simpl in *.
      rewrite !Z.mul_1_r. nia.
Qed.

(** Rounding to the nearest integer moves a number by at most one half. *)
Lemma roundHalfEven_bounds (s : Q) :
  (s - (1 # 2) <= inject_Z (roundHalfEven s))%Q /\
  (inject_Z (roundHalfEven s) <= s + (1 # 2))%Q.
Proof.
  unfold roundHalfEven. cbv zeta.
  pose proof (Qfloor_le s) as Hlo. pose proof (Qlt_floor s) as Hhi.
  rewrite inject_Z_plus in Hhi. change (inject_Z 1) with 1%Q in Hhi.
  destruct (Qcompare_spec (s - inject_Z (Qfloor s)) (1 # 2)) as [E | L | G].
  - destruct (Z.even (Qfloor s));
      [| rewrite inject_Z_plus; change (inject_Z 1) with 1%Q]; split; lra.
  - split; lra.
  - rewrite inject_Z_plus. change (inject_Z 1) with 1%Q. split; lra.
Qed.

Lemma roundHalfEven_nonneg (s : Q) : (0 <= s)%Q -> 0 <= roundHalfEven s.
Proof.
  intros Hs.
  assert (Hf : 0 <= Qfloor s).
  { change 0 with (Qfloor (inject_Z 0)). apply Qfloor_resp_le. exact Hs. }
  unfold roundHalfEven. cbv zeta.
  destruct (s - inject_Z (Qfloor s) ?= 1 # 2)%Q; [destruct (Z.even _) | |]; lia.
Qed.

Lemma roundPositive_nonneg (x : Q) : (0 < x)%Q -> (0 <= roundPositive x)%Q.
Proof.
  intros Hx. unfold roundPositive.
  apply Qmult_le_0_compat; [| apply Qlt_le_weak, pow2_pos].
  change 0%Q with (inject_Z 0). rewrite <- Zle_Qle.
  apply roundHalfEven_nonneg.
  apply Qle_shift_div_l; [apply pow2_pos | lra].
Qed.

(** Rounding to binary64 moves a positive number up by at most half the
    spacing around it. *)
Lemma roundPositive_upper (x : Q) :
  (roundPositive x <= x + 2 ^ (ulpExponent x - 1))%Q.
Proof.
  unfold roundPositive.
  set (p := ulpExponent x).
  pose proof (pow2_pos p) as HP.
  destruct (roundHalfEven_bounds (x / 2 ^ p)) as [_ Hr].
  rewrite Qpower_minus by exact two_neq_0.
  change (2 ^ 1)%Q with 2%Q.
  apply Qle_trans with ((x / 2 ^ p + (1 # 2)) * 2 ^ p)%Q.
  - apply Qmult_le_compat_r; [exact Hr | lra].
  - apply Qle_lteq. right. field. lra.
Qed.

Lemma roundBinary64_positive (x : Q) :
  (0 < x)%Q -> roundBinary64 x = roundPositive x.
Proof.
  intros Hx. unfold roundBinary64.
  destruct (Qle_bool x 0) eqn:E; [| reflexivity].
  apply Qle_bool_iff in E. lra.
Qed.

Lemma roundBinary64_nonpositive (x : Q) :
  (0 <= x)%Q -> (x <= 0)%Q -> roundBinary64 x = 0%Q.
Proof.
  intros H0 H1. unfold roundBinary64.
  apply Qle_bool_iff in H0, H1. rewrite H0, H1. reflexivity.
Qed.

(** A binary64 value below [1] is at most [1 - 2^-53]. *)
Lemma binary64_below_one (u : Q) :
  binary64 u -> (u < 1)%Q -> (u <= maxDraw)%Q.
Proof.
  intros (m & e & Hm & He & Eu) Hu. unfold maxDraw.
  destruct (Z_lt_le_dec e (-53)) as [Hs | Hb].
  - (* below one half *)
    assert (H2 : (2 ^ e <= 2 ^ (-54))%Q)
      by (apply Qpower_le_compat_l; [lia | discriminate]).
    change (2 ^ (-54))%Q with (1 # 18014398509481984)%Q in H2.
    pose proof (pow2_pos e).
    assert (Hm' : (inject_Z m <= 9007199254740992)%Q).
    { change 9007199254740992%Q with (inject_Z 9007199254740992).
      rewrite <- Zle_Qle. change (2 ^ 53) with 9007199254740992 in Hm. lia. }
    rewrite Eu.
    destruct (Qlt_le_dec (inject_Z m) 0); nra.
  - (* a multiple of 2^-53 *)
    assert (Ek : (u * 9007199254740992 == inject_Z (m * 2 ^ (e + 53)))%Q).
    { rewrite inject_Z_mult, Zpower_Qpower by lia.
      change (inject_Z 2) with 2%Q.
      rewrite Qpower_plus by exact two_neq_0.
      change (2 ^ 53)%Q with 9007199254740992%Q. rewrite Eu. ring. }
    assert (Hk : m * 2 ^ (e + 53) < 9007199254740992).
    { rewrite Zlt_Qlt, <- Ek.
      change (inject_Z 9007199254740992) with 9007199254740992%Q. lra. }
    assert (Hk' : (inject_Z (m * 2 ^ (e + 53)) <= 9007199254740991)%Q).
    { change 9007199254740991%Q with (inject_Z 9007199254740991).
      rewrite <- Zle_Qle. lia. }
    rewrite <- Ek in Hk'. lra.
Qed.

(** The rounded product of a number in [[0, 1 - 2^-53]] and a length lies
    below the length: its floor is an index in [[0, len)]. *)
Lemma randomIndex_range_maxDraw (u : Q) (len : Z) :
  (0 <= u)%Q -> (u <= maxDraw)%Q -> 0 < len -> 0 <= randomIndex u len < len.
Proof.
  intros Hu0 Hu1 Hlen. unfold randomIndex.
  set (x := (u * inject_Z len)%Q).
  assert (HL : (1 <= inject_Z len)%Q).
  { change 1%Q with (inject_Z 1). rewrite <- Zle_Qle. lia. }
  assert (Hx0 : (0 <= x)%Q) by (unfold x; nra).
  assert (Hx1 : (x <= inject_Z len - inject_Z len * (1 # 9007199254740992))%Q).
  { unfold x, maxDraw in *. nra. }
  destruct (Qlt_le_dec 0 x) as [Hx | Hx].
  - rewrite (roundBinary64_positive x Hx). split.
    + change 0 with (Qfloor (inject_Z 0)). apply Qfloor_resp_le.
      apply roundPositive_nonneg. exact Hx.
    + rewrite Zlt_Qlt.
      apply Qle_lt_trans with (roundPositive x); [apply Qfloor_le |].
      apply Qle_lt_trans with (x + 2 ^ (ulpExponent x - 1))%Q;
        [apply roundPositive_upper |].
      assert (Hhalf : (2 ^ (ulpExponent x - 1)
                       < inject_Z len * (1 # 9007199254740992))%Q).
      { unfold ulpExponent.
        destruct (Z.max_spec (floorLog2 x - 52) (-1074)) as [[_ ->] | [_ ->]].
        - apply Qlt_le_trans with (2 ^ (-53))%Q.
          + apply Qpower_lt_compat_l; [lia | reflexivity].
          + change (2 ^ (-53))%Q with (1 # 9007199254740992)%Q. nra.
        - replace (floorLog2 x - 52 - 1) with (floorLog2 x + -53) by lia.
          rewrite Qpower_plus by exact two_neq_0.
          change (2 ^ (-53))%Q with (1 # 9007199254740992)%Q.
          pose proof (floorLog2_le x Hx). nra. }
      lra.
  - rewrite (roundBinary64_nonpositive x Hx0 Hx). split; [reflexivity | exact Hlen].
Qed.

(** A draw, a binary64 value in [[0, 1)], gives an index in [[0, len)]. *)
Lemma randomIndex_range (u : Q) (len : Z) :
  isDraw u -> 0 < len -> 0 <= randomIndex u len < len.
Proof.
  intros (Hb & H0 & H1) Hlen.
  apply randomIndex_range_maxDraw; [exact H0 | | exact Hlen].
  apply binary64_below_one; assumption.
Qed.

(** A constant source of draws, and the source of the samples. *)
Lemma isDraw_zero : isDraw 0.
Proof.
  split; [| split; [discriminate | reflexivity]].
  exists 0, 0. split; [reflexivity |]. split; [lia | reflexivity].
Qed.

Lemma isDraw_half : isDraw (1 # 2).
Proof.
  split; [| split; [discriminate | reflexivity]].
  exists 1, (-1). split; [reflexivity |]. split; [lia | reflexivity].
Qed.

Lemma isDraw_third : isDraw Samples.third.
Proof.
  split; [| split; [discriminate | reflexivity]].
  exists 6004799503160661, (-54).
  split; [reflexivity |]. split; [lia | reflexivity].
Qed.

Lemma isDraw_halfHalfZero (k : nat) : isDraw (Samples.halfHalfZero k).
Proof.
  unfold Samples.halfHalfZero.
  destruct (k <? 2)%nat; [apply isDraw_half | apply isDraw_zero].
Qed.

(** On three tracks the draw [0.3333333333333333] gives the index [1]: the
    product rounds up to [1]. *)
Example randomIndex_third : randomIndex Samples.third 3 = 1.
Proof. vm_compute. reflexivity. Qed.

(** Whatever the loop returns is one of the draws, and differs from the
    index it was told to avoid. *)
Lemma drawOther_sound rnd (len idx : Z) :
  forall fuel k r,
    drawOther fuel rnd k len idx = Some r ->
    r <> idx /\ exists j, r = randomIndex (rnd j) len.
Proof.
  induction fuel as [|fuel IH]; intros k r H; simpl in H; [discriminate |].
  destruct (Z.eqb_spec (randomIndex (rnd k) len) idx) as [E | NE].
  - eapply IH; eassumption.
  - injection H as <-. split; [exact NE | exists k; reflexivity].
Qed.

(** The loop ends as soon as one draw differs from the index: with the
    [j]-th draw after [k] different, any fuel above [j] gives a result. *)
Lemma drawOther_returns rnd (len idx : Z) :
  forall j k, randomIndex (rnd (k + j)%nat) len <> idx ->
  forall fuel, (j < fuel)%nat ->
    exists r, drawOther fuel rnd k len idx = Some r.
Proof.
  induction j as [|j IH]; intros k Hne fuel Hlt;
    (destruct fuel as [|fuel]; [lia |]); simpl.
  - rewrite Nat.add_0_r in Hne.
    destruct (Z.eqb_spec (randomIndex (rnd k) len) idx); [contradiction | eauto].
  - destruct (Z.eqb_spec (randomIndex (rnd k) len) idx); [| eauto].
    apply IH; [| lia].
    replace (S k + j)%nat with (k + S j)%nat by lia. exact Hne.
Qed.

(** A source that keeps drawing the current index keeps the loop running:
    no amount of fuel gives a result. *)
Lemma drawOther_stuck rnd (len idx : Z) :
  (forall k, randomIndex (rnd k) len = idx) ->
  forall fuel k, drawOther fuel rnd k len idx = None.
Proof.
  intros Hall. induction fuel as [|fuel IH]; intros k; simpl; [reflexivity |].
  rewrite Hall, Z.eqb_refl. apply IH.
Qed.

(** The loop returns the first draw that differs from the index, once the
    fuel reaches it. *)
Lemma drawOther_first rnd (len idx : Z) :
  forall j k fuel,
    (forall i, (i < j)%nat -> randomIndex (rnd (k + i)%nat) len = idx) ->
    randomIndex (rnd (k + j)%nat) len <> idx ->
    (j < fuel)%nat ->
    drawOther fuel rnd k len idx = Some (randomIndex (rnd (k + j)%nat) len).
Proof.
  induction j as [|j IH]; intros k fuel Hsame Hne Hlt;
    (destruct fuel as [|fuel]; [lia |]); simpl.
  - rewrite Nat.add_0_r in *.
    destruct (Z.eqb_spec (randomIndex (rnd k) len) idx); [contradiction | reflexivity].
  - pose proof (Hsame 0%nat ltac:(lia)) as H0. rewrite Nat.add_0_r in H0.
    rewrite H0, Z.eqb_refl.
    replace (k + S j)%nat with (S k + j)%nat in * by lia.
    apply IH; [| exact Hne | lia].
    intros i Hi. replace (S k + i)%nat with (k + S i)%nat by lia.
    apply Hsame. lia.
Qed.

(** In the shuffle branch both functions are the loop. *)
Lemma prevIndex_shuffle s fuel rnd :
  shuffle s && (1 <? count s) = true ->
  prevIndex fuel rnd s = drawOther fuel rnd 0 (count s) (index s).
Proof.
  intros H. unfold prevIndex. rewrite H. reflexivity.
Qed.

Lemma nextIndex_shuffle s fuel rnd :
  shuffle s && (1 <? count s) = true -> repeatMode s <> One ->
  nextIndex fuel rnd s = drawOther fuel rnd 0 (count s) (index s).
Proof.
  intros H Hm. unfold nextIndex. rewrite H.
  destruct (repeatMode s); [reflexivity | contradiction | reflexivity].
Qed.

(** What the loop returns on draws is an index of the playlist. *)
Lemma drawOther_range rnd (len idx : Z) :
  (forall k, isDraw (rnd k)) -> 0 < len ->
  forall fuel k r,
    drawOther fuel rnd k len idx = Some r -> 0 <= r < len.
Proof.
  intros Hrnd Hlen fuel k r H.
  apply drawOther_sound in H. destruct H as [_ [j ->]].
  apply randomIndex_range; [apply Hrnd | exact Hlen].
Qed.

(** Outside the shuffle branch neither function draws: the result does not
    depend on the fuel or on the random source. *)
Lemma nextIndex_no_shuffle s fuel rnd :
  shuffle s && (1 <? count s) = false ->
  nextIndex fuel rnd s =
  Some (if isOne (repeatMode s) then index s
        else if index s + 1 <? count s then index s + 1
        else if isAll (repeatMode s) then 0 else index s).
Proof.
  intros H. unfold nextIndex. rewrite H.
  destruct (isOne (repeatMode s)); [reflexivity |].
  destruct (index s + 1 <? count s); reflexivity.
Qed.

Lemma prevIndex_no_shuffle s fuel rnd :
  shuffle s && (1 <? count s) = false ->
  prevIndex fuel rnd s =
  Some (if 0 <? index s then index s - 1
        else if isAll (repeatMode s) then count s - 1 else 0).
Proof.
  intros H. unfold prevIndex. rewrite H. reflexivity.
Qed.

End SequencerFacts.

(* ================================================================== *)
(** * Sequencer claims *)
(* ================================================================== *)

Import Player.

(** C1 (as the code has it).  With a non-empty playlist and
    [repeatMode == one], [nextIndex] returns the current index unchanged for
    either value of the shuffle flag.  [prevIndex] does not look at
    repeat-one: outside the shuffle branch it returns [current - 1] when
    [current > 0] and [0] otherwise; in the shuffle branch it returns the
    first drawn index that differs from the current one, an index of the
    playlist, and returns nothing else. *)
Theorem repeat_one_next_prev {X} (s : State X) (fuel : nat) (rnd : nat -> Q) :
  0 < count s ->
  repeatMode s = One ->
  nextIndex fuel rnd s = Some (index s) /\
  (shuffle s && (1 <? count s) = false ->
     prevIndex fuel rnd s = Some (if 0 <? index s then index s - 1 else 0)) /\
  (shuffle s && (1 <? count s) = true ->
     (forall j,
        (forall i, (i < j)%nat -> randomIndex (rnd i) (count s) = index s) ->
        randomIndex (rnd j) (count s) <> index s ->
        (j < fuel)%nat ->
        prevIndex fuel rnd s = Some (randomIndex (rnd j) (count s))) /\
     (forall r, prevIndex fuel rnd s = Some r ->
        r <> index s /\
        ((forall k, isDraw (rnd k)) -> 0 <= r < count s))).
Proof.
  intros Hc Hone. split; [| split].
  - unfold nextIndex. rewrite Hone. reflexivity.
  - intros H. rewrite (prevIndex_no_shuffle s fuel rnd H), Hone. reflexivity.
  - intros H. rewrite (prevIndex_shuffle s fuel rnd H). split.
    + intros j Hsame Hne Hlt.
      apply (drawOther_first rnd (count s) (index s) j 0%nat fuel);
        assumption.
    + intros r Hr. split.
      * apply drawOther_sound in Hr. tauto.
      * intros Hrnd.
        apply (drawOther_range rnd (count s) (index s) Hrnd Hc fuel 0%nat r Hr).
Qed.

Lemma repeat_one_next_prev_witness :
  let s := Samples.three App.initial 1 false One in
  let s' := Samples.three Modern.initial 1 true One in
  let rnd := Samples.halfHalfZero in
  (0 < count s /\ repeatMode s = One /\
   nextIndex 0 (Samples.always 0) s = Some (index s) /\
   prevIndex 0 (Samples.always 0) s = Some 0) /\
  (0 < count s' /\ repeatMode s' = One /\
   shuffle s' && (1 <? count s') = true /\
   (forall k, isDraw (rnd k)) /\
   nextIndex 3 rnd s' = Some (index s') /\
   prevIndex 3 rnd s' = Some (randomIndex (rnd 2%nat) (count s')) /\
   randomIndex (rnd 2%nat) (count s') = 0 /\
   (forall r, prevIndex 3 rnd s' = Some r ->
      r <> index s' /\ 0 <= r < count s')).
Proof.
  intros s s' rnd. split.
  - destruct (repeat_one_next_prev s 0%nat (Samples.always 0) eq_refl eq_refl)
      as (Hn & Hp & _).
    split; [reflexivity |]. split; [reflexivity |].
    split; [exact Hn | exact (Hp eq_refl)].
  - destruct (repeat_one_next_prev s' 3%nat rnd eq_refl eq_refl)
      as (Hn & _ & Hsh).
    destruct (Hsh eq_refl) as [Hfirst Hret].
    split; [reflexivity |]. split; [reflexivity |]. split; [reflexivity |].
    split; [exact isDraw_halfHalfZero |]. split; [exact Hn |].
    split; [| split; [vm_compute; reflexivity |]].
    + apply (Hfirst 2%nat); [| vm_compute; discriminate | lia].
      intros i Hi. destruct i as [|[|i]]; [vm_compute; reflexivity .. | lia].
    + intros r Hr. destruct (Hret r Hr) as [Hne Hrange].
      split; [exact Hne | exact (Hrange isDraw_halfHalfZero)].
Defined.

(** C1 as stated fails for [prevIndex]: with three tracks, the second one
    selected, shuffle off and [repeatMode == one], in either version of the
    component, [prevIndex] returns [0], not the current index [1]. *)
Lemma repeat_one_prev_counterexample :
  let s := Samples.three App.initial 1 false One in
  let s' := Samples.three Modern.initial 1 false One in
  0 < count s /\ repeatMode s = One /\ index s = 1 /\
  prevIndex 0 (Samples.always 0) s = Some 0 /\
  prevIndex 0 (Samples.always 0) s <> Some (index s) /\
  0 < count s' /\ repeatMode s' = One /\ index s' = 1 /\
  prevIndex 0 (Samples.always 0) s' = Some 0 /\
  prevIndex 0 (Samples.always 0) s' <> Some (index s').
Proof.
  cbv zeta. repeat split; try reflexivity; discriminate.
Qed.

(** C5.  With more than one track and shuffle on, every index that
    [prevIndex] returns, and every index that [nextIndex] returns when
    [repeatMode] is not [one], lies in [[0, count)] and differs from the
    current index, for every sequence of draws (binary64 values in
    [[0, 1)], multiplied by the length as binary64 values are); and both
    return such an index as soon as one draw lands on another index. *)
Theorem shuffle_picks_other {X} (s : State X) (rnd : nat -> Q) :
  (forall k, isDraw (rnd k)) ->
  1 < count s ->
  shuffle s = true ->
  (forall fuel r,
      (repeatMode s <> One -> nextIndex fuel rnd s = Some r ->
         0 <= r < count s /\ r <> index s) /\
      (prevIndex fuel rnd s = Some r -> 0 <= r < count s /\ r <> index s)) /\
  (forall j fuel,
      randomIndex (rnd j) (count s) <> index s -> (j < fuel)%nat ->
      (repeatMode s <> One -> exists r, nextIndex fuel rnd s = Some r) /\
      (exists r, prevIndex fuel rnd s = Some r)).
Proof.
  intros Hrnd Hcount Hsh.
  assert (Hbranch : shuffle s && (1 <? count s) = true).
  { rewrite Hsh. simpl. apply Z.ltb_lt. exact Hcount. }
  assert (Hdraw : forall fuel r,
             drawOther fuel rnd 0 (count s) (index s) = Some r ->
             0 <= r < count s /\ r <> index s).
  { intros fuel r H. apply drawOther_sound in H. destruct H as [Hne [j ->]].
    split; [| exact Hne].
    apply randomIndex_range; [apply Hrnd | lia]. }
  assert (Hnext : repeatMode s <> One ->
             forall fuel, nextIndex fuel rnd s =
                          drawOther fuel rnd 0 (count s) (index s)).
  { intros Hm fuel. unfold nextIndex. rewrite Hbranch.
    destruct (repeatMode s); [reflexivity | contradiction | reflexivity]. }
  assert (Hprev : forall fuel, prevIndex fuel rnd s =
                               drawOther fuel rnd 0 (count s) (index s)).
  { intros fuel. unfold prevIndex. rewrite Hbranch. reflexivity. }
  split.
  - intros fuel r. split.
    + intros Hm H. rewrite (Hnext Hm) in H. eauto.
    + intros H. rewrite Hprev in H. eauto.
  - intros j fuel Hj Hlt.
    assert (Hex : exists r, drawOther fuel rnd 0 (count s) (index s) = Some r)
      by (apply (drawOther_returns rnd (count s) (index s) j 0%nat); assumption).
    split.
    + intros Hm. rewrite (Hnext Hm). exact Hex.
    + rewrite Hprev. exact Hex.
Qed.

Lemma shuffle_picks_other_witness :
  let s := Samples.three Modern.initial 1 true Off in
  let rnd := Samples.halfHalfZero in
  (forall k, isDraw (rnd k)) /\
  1 < count s /\ shuffle s = true /\
  nextIndex 3 rnd s = Some 0 /\ prevIndex 3 rnd s = Some 0 /\
  (forall fuel r,
      (repeatMode s <> One -> nextIndex fuel rnd s = Some r ->
         0 <= r < count s /\ r <> index s) /\
      (prevIndex fuel rnd s = Some r -> 0 <= r < count s /\ r <> index s)) /\
  (forall j fuel,
      randomIndex (rnd j) (count s) <> index s -> (j < fuel)%nat ->
      (repeatMode s <> One -> exists r, nextIndex fuel rnd s = Some r) /\
      (exists r, prevIndex fuel rnd s = Some r)).
Proof.
  intros s rnd.
  assert (Hrnd : forall k, isDraw (rnd k)) by exact isDraw_halfHalfZero.
  split; [exact Hrnd |]. split; [reflexivity |]. split; [reflexivity |].
  split; [vm_compute; reflexivity |]. split; [vm_compute; reflexivity |].
  apply (shuffle_picks_other s rnd Hrnd); reflexivity.
Defined.

(** The draw [0.3333333333333333] on three tracks with the second one
    selected lands on the selected track; a source that returns nothing
    else keeps either function drawing. *)
Example shuffle_third_never_returns (fuel : nat) :
  nextIndex fuel (Samples.always Samples.third)
            (Samples.three Modern.initial 1 true Off) = None /\
  prevIndex fuel (Samples.always Samples.third)
            (Samples.three Modern.initial 1 true Off) = None.
Proof.
  split.
  - rewrite nextIndex_shuffle by (reflexivity || discriminate).
    apply drawOther_stuck. intros k. vm_compute. reflexivity.
  - rewrite prevIndex_shuffle by reflexivity.
    apply drawOther_stuck. intros k. vm_compute. reflexivity.
Qed.

(** C6.  On the last track of a non-empty playlist, with shuffle off and
    [repeatMode] not [one], [nextIndex] returns [0] under repeat-all and the
    current index under repeat-off. *)
Theorem nextIndex_at_end {X} (s : State X) (fuel : nat) (rnd : nat -> Q) :
  0 < count s ->
  index s = count s - 1 ->
  shuffle s = false ->
  repeatMode s <> One ->
  (repeatMode s = All -> nextIndex fuel rnd s = Some 0) /\
  (repeatMode s = Off -> nextIndex fuel rnd s = Some (index s)).
Proof.
  intros _ Hlast Hsh _.
  assert (H : shuffle s && (1 <? count s) = false) by (rewrite Hsh; reflexivity).
  rewrite (nextIndex_no_shuffle s fuel rnd H).
  assert (Hend : (index s + 1 <? count s) = false) by (apply Z.ltb_ge; lia).
  rewrite Hend.
  split; intros ->; reflexivity.
Qed.

Lemma nextIndex_at_end_witness :
  let s := Samples.three App.initial 2 false Off in
  let s' := Samples.three App.initial 2 false All in
  (0 < count s /\ index s = count s - 1 /\ shuffle s = false /\
   repeatMode s <> One /\ nextIndex 0 (Samples.always 0) s = Some 2) /\
  (0 < count s' /\ index s' = count s' - 1 /\ shuffle s' = false /\
   repeatMode s' <> One /\ nextIndex 0 (Samples.always 0) s' = Some 0).
Proof.
  intros s s'. split.
  - repeat (split; [(reflexivity || discriminate) |]).
    apply (nextIndex_at_end s 0%nat (Samples.always 0));
      (reflexivity || discriminate).
  - repeat (split; [(reflexivity || discriminate) |]).
    apply (nextIndex_at_end s' 0%nat (Samples.always 0));
      (reflexivity || discriminate).
Defined.

(** The end of the queue: on the last track, with repeat off and a
    listener registered while shuffle was off, the [ended] event stops
    playback and keeps the selection. *)
Lemma onEnd_end_of_queue {X} (r s : State X) (fuel : nat) (rnd : nat -> Q) :
  listenerRender r s ->
  index s = count s - 1 ->
  shuffle r = false ->
  repeatMode s = Off ->
  onEnd fuel rnd r s = Some (setPlaying false s).
Proof.
  intros (Ei & Em & Ec) Hlast Hsh Hoff. unfold onEnd.
  assert (H : shuffle r && (1 <? count r) = false) by (rewrite Hsh; reflexivity).
  rewrite (nextIndex_no_shuffle r fuel rnd H), Em, Hoff, Ei, Ec. simpl.
  replace (index s + 1 <? count s) with false by (symmetry; apply Z.ltb_ge; lia).
  rewrite Z.eqb_refl. reflexivity.
Qed.

(** X24.  On an empty playlist neither function draws, so both return for any
    fuel and any random source.  With the selection at [0] or beyond,
    [nextIndex] returns [0] under repeat-all and the current index
    otherwise; [prevIndex] steps back from a positive index, and from [0]
    it returns [count - 1 = -1] under repeat-all and [0] otherwise. *)
Lemma sequencer_on_empty {X} (s : State X) (fuel : nat) (rnd : nat -> Q) :
  count s = 0 ->
  0 <= index s ->
  nextIndex fuel rnd s =
    Some (if isAll (repeatMode s) then 0 else index s) /\
  prevIndex fuel rnd s =
    Some (if 0 <? index s then index s - 1
          else if isAll (repeatMode s) then -1 else 0).
Proof.
  intros Hc Hi.
  assert (H : shuffle s && (1 <? count s) = false)
    by (rewrite Hc; apply andb_false_r).
  rewrite (nextIndex_no_shuffle s fuel rnd H), (prevIndex_no_shuffle s fuel rnd H).
  rewrite Hc.
  replace (index s + 1 <? 0) with false by (symmetry; apply Z.ltb_ge; lia).
  split; [| reflexivity].
  destruct (repeatMode s); reflexivity.
Qed.


(* ================================================================== *)
(** * Session claims: seeking, removing, clearing *)
(* ================================================================== *)

(** [setCurrentTime] touches the stored position and the audio element
    only. *)
Lemma setCurrentTime_frame {X} (s : State X) (val : Q) :
  let s' := setCurrentTime val s in
  tracks s' = tracks s /\ index s' = index s /\ playing s' = playing s /\
  shuffle s' = shuffle s /\ repeatMode s' = repeatMode s /\
  volume s' = volume s /\ muted s' = muted s /\ duration s' = duration s /\
  extra s' = extra s.
Proof.
  unfold setCurrentTime. destruct (audioRef s); repeat split; reflexivity.
Qed.

(** C3 (as the code has it).  [setCurrentTime(val)] does not clamp: with
    the audio element mounted it stores [val] itself as the position and
    hands the same value to the audio element, for every [val]; it never
    changes the playing flag (nor the duration).  The bound comes from the
    seek slider that calls it, whose values lie in
    [[0, max(1, duration)]]: for such a value the stored position lies in
    that range, and does not exceed the duration when the duration is at
    least one second. *)
Theorem setCurrentTime_stores_val {X} (s : State X) (val : Q) (a : Audio) :
  audioRef s = Some a ->
  let s' := setCurrentTime val s in
  progress s' = val /\
  audioRef s' = Some (mkAudio val) /\
  playing s' = playing s /\
  duration s' = duration s /\
  (seekSliderValue s val ->
     (0 <= progress s')%Q /\ (progress s' <= Qmax 1 (duration s))%Q /\
     ((1 <= duration s)%Q -> (progress s' <= duration s)%Q)).
Proof.
  intros Ha. unfold setCurrentTime. rewrite Ha. cbn.
  do 4 (split; [reflexivity |]).
  intros [Hlo Hhi]. split; [exact Hlo |]. split; [exact Hhi |].
  intros Hd. unfold seekSliderMax in Hhi.
  rewrite (Q.max_r _ _ Hd) in Hhi. exact Hhi.
Qed.

Lemma setCurrentTime_stores_val_witness :
  let s := setDuration 180 (Samples.three App.initial 0 false Off) in
  audioRef s = Some (mkAudio 0) /\
  seekSliderValue s 75 /\
  progress (setCurrentTime 75 s) = 75%Q /\
  playing (setCurrentTime 75 s) = playing s /\
  (progress (setCurrentTime 75 s) <= duration s)%Q.
Proof.
  intros s.
  assert (Hs : seekSliderValue s 75) by (split; discriminate).
  split; [reflexivity |]. split; [exact Hs |].
  destruct (setCurrentTime_stores_val s 75 (mkAudio 0) eq_refl)
    as (Hp & _ & Hpl & _ & Hb).
  split; [exact Hp |]. split; [exact Hpl |].
  destruct (Hb Hs) as (_ & _ & Hd). apply Hd. discriminate.
Defined.

(** C3 as stated fails: on a clip half a second long the seek slider
    reaches up to [max(1, 1/2) = 1]; [setCurrentTime(1)] stores the
    position [1], beyond the known duration [1/2], in either version of the
    component. *)
Lemma setCurrentTime_counterexample :
  let s := setDuration (1 # 2) (Samples.three App.initial 0 false Off) in
  let s' := setDuration (1 # 2) (Samples.three Modern.initial 0 false Off) in
  seekSliderValue s 1 /\
  progress (setCurrentTime 1 s) = 1%Q /\
  ~ (progress (setCurrentTime 1 s) <= duration s)%Q /\
  seekSliderValue s' 1 /\
  progress (setCurrentTime 1 s') = 1%Q /\
  ~ (progress (setCurrentTime 1 s') <= duration s')%Q.
Proof.
  cbv zeta. unfold seekSliderValue.
  repeat split; try reflexivity; try discriminate;
    intros H; apply H; reflexivity.
Qed.

(** X23.  The media-session [seekto] handler of the second version clamps
    the requested time into [[0, duration]] before it hands it to the audio
    element: a time inside the range is handed over as it is, a negative
    one becomes [0], one beyond the duration becomes the duration.  Nothing
    but the position of the audio element changes; the playing flag in
    particular stays. *)
Lemma seekTo_clamps (s : Modern.St) (t : Q) (a : Audio) :
  audioRef s = Some a ->
  (0 <= duration s)%Q ->
  exists a',
    Modern.seekTo t s = setAudio (Some a') s /\
    (0 <= currentTime a')%Q /\ (currentTime a' <= duration s)%Q /\
    ((0 <= t)%Q -> (t <= duration s)%Q -> (currentTime a' == t)%Q) /\
    ((t < 0)%Q -> (currentTime a' == 0)%Q) /\
    ((duration s < t)%Q -> (currentTime a' == duration s)%Q) /\
    playing (Modern.seekTo t s) = playing s.
Proof.
  intros Ha Hd. unfold Modern.seekTo. rewrite Ha.
  eexists. split; [reflexivity |]. cbn.
  split; [apply Q.min_glb; [apply Q.le_max_l | exact Hd] |].
  split; [apply Q.le_min_r |].
  split; [| split; [| split; [| reflexivity]]].
  - intros H0 H1. rewrite (Q.max_r 0 t H0). apply Q.min_l. exact H1.
  - intros Hneg. rewrite (Q.max_l 0 t) by lra. apply Q.min_l. exact Hd.
  - intros Hbig. rewrite (Q.max_r 0 t) by lra. apply Q.min_r. lra.
Qed.

(** [findIndex] on a list that holds a match: the result is a position of
    the list. *)
Lemma findIndexFrom_range {A} (f : A -> bool) (l : list A) :
  forall k, existsb f l = true ->
  k <= findIndexFrom f l k < k + Z.of_nat (List.length l).
Proof.
  induction l as [|x l IH]; intros k H; simpl in *; [discriminate |].
  destruct (f x); [lia |].
  simpl in H. specialize (IH (k + 1) H). lia.
Qed.

Lemma findIndexFrom_absent {A} (f : A -> bool) (l : list A) :
  forall k, existsb f l = false -> findIndexFrom f l k = -1.
Proof.
  induction l as [|x l IH]; intros k H; simpl in *; [reflexivity |].
  destruct (f x); [discriminate | apply IH; exact H].
Qed.

(** With identifiers that are unique, the filter drops exactly one entry. *)
Lemma filter_unique_id (i : string) (l : list Track) :
  NoDup (map id l) -> In i (map id l) ->
  S (List.length (filter (fun t => negb (id t =? i)%string) l)) = List.length l.
Proof.
  induction l as [|t l IH]; intros Hnd Hin; simpl in *; [contradiction |].
  inversion Hnd as [|? ? Hnotin Hnd']; subst.
  destruct (String.eqb_spec (id t) i) as [E | NE]; simpl.
  - f_equal. subst i.
    clear IH Hin Hnd Hnd'. induction l as [|u l IHl]; simpl; [reflexivity |].
    simpl in Hnotin.
    destruct (String.eqb_spec (id u) (id t)) as [E | NE]; simpl.
    + exfalso. apply Hnotin. left. exact E.
    + f_equal. apply IHl. intros H. apply Hnotin. right. exact H.
  - f_equal. apply IH; [exact Hnd' |].
    destruct Hin as [E | Hin]; [contradiction | exact Hin].
Qed.

Lemma existsb_id (i : string) (l : list Track) :
  In i (map id l) -> existsb (fun t => (id t =? i)%string) l = true.
Proof.
  intros H. apply in_map_iff in H. destruct H as (t & <- & Hin).
  apply existsb_exists. exists t. split; [exact Hin | apply String.eqb_refl].
Qed.

(** X8.  The second version of the component does what C4 says.  For an
    identifier of the playlist, with [idx] its first position and
    [newCount] the length after the removal: removing the current track
    moves the selection to [min(idx, newCount - 1)], or [0] when nothing is
    left, and stops playback; removing an earlier track moves the selection
    down by one; removing a later one leaves it alone.  The last two leave
    the playing flag alone. *)
Lemma Modern_removeTrack_spec (s : Modern.St) (i : string) :
  In i (map id (tracks s)) ->
  let idx := findIndex (fun t => (id t =? i)%string) (tracks s) in
  let s' := Modern.removeTrack i s in
  let newCount := count s' in
  0 <= idx < count s /\
  tracks s' = filter (fun t => negb (id t =? i)%string) (tracks s) /\
  (NoDup (map id (tracks s)) -> newCount = count s - 1) /\
  (idx = index s ->
     index s' = (if newCount =? 0 then 0 else Z.min idx (newCount - 1)) /\
     playing s' = false) /\
  (idx < index s -> index s' = index s - 1 /\ playing s' = playing s) /\
  (index s < idx -> index s' = index s /\ playing s' = playing s).
Proof.
  intros Hin idx s' newCount.
  assert (Hidx : 0 <= idx < count s).
  { pose proof (findIndexFrom_range (fun t => (id t =? i)%string) (tracks s) 0
                  (existsb_id i (tracks s) Hin)) as H.
    unfold idx, findIndex, count. lia. }
  assert (Htr : tracks s' = filter (fun t => negb (id t =? i)%string) (tracks s)).
  { unfold s', Modern.removeTrack. cbv zeta. reflexivity. }
  assert (Hnc : 0 <= newCount) by (unfold newCount, count; lia).
  split; [exact Hidx |]. split; [exact Htr |]. split; [| split; [| split]].
  - intros Hnd. unfold newCount, count. rewrite Htr.
    pose proof (filter_unique_id i (tracks s) Hnd Hin). lia.
  - intros E. fold idx in E.
    assert (Hi : index s' = Z.max 0 (Z.min idx (newCount - 1)) /\ playing s' = false).
    { unfold s', Modern.removeTrack. cbv zeta. fold idx.
      rewrite E, Z.eqb_refl. cbn. unfold newCount, count. rewrite Htr.
      split; reflexivity. }
    destruct Hi as [Hi Hp]. split; [| exact Hp]. rewrite Hi.
    destruct (Z.eqb_spec newCount 0); lia.
  - intros Hlt. unfold s', Modern.removeTrack. cbv zeta. fold idx.
    replace (idx =? index s) with false by (symmetry; apply Z.eqb_neq; lia).
    replace (idx <? index s) with true by (symmetry; apply Z.ltb_lt; lia).
    cbn. split; [lia | reflexivity].
  - intros Hgt. unfold s', Modern.removeTrack. cbv zeta. fold idx.
    replace (idx =? index s) with false by (symmetry; apply Z.eqb_neq; lia).
    replace (idx <? index s) with false by (symmetry; apply Z.ltb_ge; lia).
    cbn. split; reflexivity.
Qed.

(** [removeTrack] of [src/App.jsx] only filters the playlist. *)
Lemma App_removeTrack_frame (s : App.St) (i : string) :
  let s' := App.removeTrack i s in
  tracks s' = filter (fun t => negb (id t =? i)%string) (tracks s) /\
  index s' = index s /\ playing s' = playing s.
Proof.
  repeat split; reflexivity.
Qed.

(** C4 (the code at the failing inputs).  In [src/App.jsx], with three
    tracks playing and the last one selected: removing that track leaves the
    index at [2], which is past the end of the two tracks that remain, and
    leaves [playing] set, where C4 gives index [min(2, 1) = 1] and playback
    stopped; removing the first track leaves the index at [2] as well,
    where C4 gives [1].  The second version of the component gives the
    values of C4 on the same inputs. *)
Theorem App_removeTrack_keeps_selection :
  let a := setPlaying true (Samples.three App.initial 2 false Off) in
  let m := setPlaying true (Samples.three Modern.initial 2 false Off) in
  (index (App.removeTrack "c" a) = 2 /\
   playing (App.removeTrack "c" a) = true /\
   count (App.removeTrack "c" a) = 2 /\
   nth_error (tracks (App.removeTrack "c" a)) 2 = None /\
   index (App.removeTrack "a" a) = 2 /\
   count (App.removeTrack "a" a) = 2) /\
  (index (Modern.removeTrack "c" m) = 1 /\
   playing (Modern.removeTrack "c" m) = false /\
   index (Modern.removeTrack "a" m) = 1 /\
   playing (Modern.removeTrack "a" m) = true).
Proof.
  cbv zeta. repeat split; reflexivity.
Qed.

(** C10.  In both versions of the component [clearAll] empties the
    playlist, sets the index to [0], [playing] to false and position and
    duration to [0], and leaves shuffle, repeat mode, volume and the muted
    flag as they were. *)
Theorem clearAll_resets (a : App.St) (m : Modern.St) :
  (tracks (App.clearAll a) = [] /\ index (App.clearAll a) = 0 /\
   playing (App.clearAll a) = false /\
   progress (App.clearAll a) = 0%Q /\ duration (App.clearAll a) = 0%Q /\
   shuffle (App.clearAll a) = shuffle a /\
   repeatMode (App.clearAll a) = repeatMode a /\
   volume (App.clearAll a) = volume a /\ muted (App.clearAll a) = muted a) /\
  (tracks (Modern.clearAll m) = [] /\ index (Modern.clearAll m) = 0 /\
   playing (Modern.clearAll m) = false /\
   progress (Modern.clearAll m) = 0%Q /\ duration (Modern.clearAll m) = 0%Q /\
   shuffle (Modern.clearAll m) = shuffle m /\
   repeatMode (Modern.clearAll m) = repeatMode m /\
   volume (Modern.clearAll m) = volume m /\
   muted (Modern.clearAll m) = muted m).
Proof.
  repeat split; reflexivity.
Qed.

(** [clearAll] also leaves the audio element alone; [src/App.jsx] empties
    the library tree and keeps the background colour, the second version
    keeps its [seeking] flag. *)
Lemma clearAll_rest (a : App.St) (m : Modern.St) :
  audioRef (App.clearAll a) = audioRef a /\
  App.library (extra (App.clearAll a)) = [] /\
  App.bgColor (extra (App.clearAll a)) = App.bgColor (extra a) /\
  audioRef (Modern.clearAll m) = audioRef m /\
  extra (Modern.clearAll m) = extra m.
Proof.
  repeat split; reflexivity.
Qed.

(* ================================================================== *)
(** * Tag reading claims *)
(* ================================================================== *)

Section ReadTagsFacts.
Variable createObjectURL : list N -> string -> string.
Variable file : File.

(** A settled promise stays as it is, whatever the library does next. *)
Lemma readStep_settled (m : Meta) (events : list ReadEvent) :
  fold_left (readStep createObjectURL file) events (Fulfilled m) = Fulfilled m.
Proof.
  induction events as [|e events IH]; simpl; [reflexivity |].
  destruct e; simpl; exact IH.
Qed.

(** No event rejects the promise. *)
Lemma readStep_not_rejected (events : list ReadEvent) :
  forall p, p <> Rejected ->
  fold_left (readStep createObjectURL file) events p <> Rejected.
Proof.
  induction events as [|e events IH]; intros p Hp; simpl; [exact Hp |].
  apply IH. destruct e, p; simpl; congruence.
Qed.

Lemma readTags_never_rejects (events : list ReadEvent) :
  readTags createObjectURL file events <> Rejected.
Proof.
  apply readStep_not_rejected. discriminate.
Qed.

(** The promise stays pending exactly as long as the library has done
    nothing. *)
Lemma readTags_pending (events : list ReadEvent) :
  readTags createObjectURL file events = Pending <-> events = [].
Proof.
  split; [| intros ->; reflexivity].
  destruct events as [|e events]; [reflexivity |].
  unfold readTags. simpl. destruct e; simpl; rewrite readStep_settled; discriminate.
Qed.

End ReadTagsFacts.

(** C7 (as the code has it).  When tag reading fails, that is when the
    first thing the library does is call [onError] or throw, [readTags]
    resolves, and is not rejected, whatever happens afterwards, with the
    title equal to the file name, an empty artist, an empty album and no
    cover art.  ["Unknown Artist"] is what the playlist row then shows for
    the empty artist; the row shows the file name as the title. *)
Theorem readTags_failure_fallback
    (createObjectURL : list N -> string -> string) (file : File)
    (first : ReadEvent) (rest : list ReadEvent)
    (i : string) (src : option string) :
  first = CallsOnError \/ first = Throws ->
  let p := readTags createObjectURL file (first :: rest) in
  let m := mkMeta (fileName file) "" "" None in
  let t := mkTrack i src (fileName file) (Some m) in
  p = Fulfilled m /\ p <> Rejected /\
  shownArtist t = "Unknown Artist"%string /\
  shownTitle t = fileName file.
Proof.
  intros Hfail p m t.
  assert (Hp : p = Fulfilled m).
  { unfold p, readTags. destruct Hfail as [-> | ->]; simpl;
      apply readStep_settled. }
  split; [exact Hp |]. split; [rewrite Hp; discriminate |].
  split; [reflexivity |].
  unfold shownTitle, t. simpl.
  destruct (fileName file =? "")%string; reflexivity.
Qed.

Lemma readTags_failure_fallback_witness :
  let url : list N -> string -> string := fun _ _ => "blob:cover"%string in
  let file := mkFile "song.mp3" "audio/mpeg" in
  (Throws = CallsOnError \/ Throws = Throws) /\
  readTags url file [Throws; CallsOnError] =
    Fulfilled (mkMeta "song.mp3" "" "" None) /\
  shownArtist (mkTrack "id-1" (Some "blob:1"%string) "song.mp3"
                 (Some (mkMeta "song.mp3" "" "" None)))
    = "Unknown Artist"%string.
Proof.
  intros url file.
  assert (Hfail : Throws = CallsOnError \/ Throws = Throws) by (right; reflexivity).
  split; [exact Hfail |].
  destruct (readTags_failure_fallback url file Throws [CallsOnError]
              "id-1" (Some "blob:1"%string) Hfail) as (Hp & _ & Ha & _).
  split; [exact Hp | exact Ha].
Defined.

(** C7 as stated fails on the artist: when the library calls [onError],
    and also when it throws, [readTags] resolves with the empty string as
    artist, not with ["Unknown Artist"]. *)
Lemma readTags_artist_counterexample :
  let url : list N -> string -> string := fun _ _ => "blob:cover"%string in
  let file := mkFile "song.mp3" "audio/mpeg" in
  readTags url file [CallsOnError] = Fulfilled (mkMeta "song.mp3" "" "" None) /\
  readTags url file [Throws] = Fulfilled (mkMeta "song.mp3" "" "" None) /\
  artist (mkMeta "song.mp3" "" "" None) <> "Unknown Artist"%string.
Proof.
  cbv zeta. repeat split; try reflexivity. discriminate.
Qed.

(** Where the artist is ["Unknown Artist"] already in the resolved value:
    the library succeeds and the tags carry no artist. *)
Lemma readTags_success_no_artist
    (createObjectURL : list N -> string -> string) (file : File)
    (tags : Tags) (rest : list ReadEvent) :
  tagArtist tags = None ->
  exists m, readTags createObjectURL file (CallsOnSuccess tags :: rest)
            = Fulfilled m /\
            artist m = "Unknown Artist"%string.
Proof.
  intros Ha. eexists. unfold readTags. simpl. rewrite readStep_settled.
  split; [reflexivity |]. simpl. rewrite Ha. reflexivity.
Qed.

(* ================================================================== *)
(** * Server claims *)
(* ================================================================== *)

(** The filter on three file names: an ordinary name is refused, a name
    with a backslash two characters before the extension is accepted. *)
Example matchAudio_ordinary : Server.matchAudio "song.mp3" = false.
Proof. reflexivity. Qed.

Example matchAudio_backslash_dot : Server.matchAudio "song\.MP3" = true.
Proof. reflexivity. Qed.

Example matchAudio_backslash_any : Server.matchAudio "a\xflac" = true.
Proof. reflexivity. Qed.

Example matchAudio_not_at_end : Server.matchAudio "a\.mp3.txt" = false.
Proof. reflexivity. Qed.

Section ServerFacts.
Import Server.
Variable uuidv4 : nat -> string.

Lemma matchHere_backslash (f : string) :
  matchHere f = true -> containsBackslash f = true.
Proof.
  destruct f as [|b [|c rest]]; simpl; try discriminate.
  intros H. apply andb_prop in H. destruct H as [H _].
  apply andb_prop in H. destruct H as [H _]. rewrite H. reflexivity.
Qed.

(** A name the filter accepts holds a backslash. *)
Lemma matchAudio_backslash (f : string) :
  matchAudio f = true -> containsBackslash f = true.
Proof.
  induction f as [|c f IH]; [discriminate |].
  intros H. change (matchHere (String c f) || matchAudio f = true) in H.
  apply orb_prop in H. destruct H as [H | H].
  - apply matchHere_backslash. exact H.
  - simpl. rewrite (IH H). apply orb_true_r.
Qed.

Lemma pushedFrom_incl (names names' : list string) (l : list Track) :
  incl names names' -> Forall (pushedFrom names) l -> Forall (pushedFrom names') l.
Proof.
  intros Hincl. apply Forall_impl. intros t [Hin Hm]. split; [apply Hincl, Hin | exact Hm].
Qed.

(** What [walk] pushes comes from the files it visits and passed the
    filter; what was on [tracks] before stays in front. *)
Lemma walkEntry_pushes (baseDir : Path) (e : Entry) :
  forall dir s, exists added,
    tracks (walkEntry uuidv4 baseDir dir e s) = tracks s ++ added /\
    Forall (pushedFrom (fileNames e)) added.
Proof.
  induction e as [f | f entries IH] using Entry_tree_ind; intros dir s.
  - simpl. destruct (matchAudio f) eqn:Hm.
    + eexists. split; [reflexivity |]. constructor; [| constructor].
      split; [left; reflexivity | exact Hm].
    + exists []. split; [symmetry; apply app_nil_r | constructor].
  - simpl. generalize (pathJoin dir f) as full. intros full. revert s.
    induction IH as [|e entries He _ IHentries]; intros s; simpl.
    + exists []. split; [symmetry; apply app_nil_r | constructor].
    + destruct (He full s) as (added1 & E1 & F1).
      destruct (IHentries (walkEntry uuidv4 baseDir full e s)) as (added2 & E2 & F2).
      exists (added1 ++ added2). split.
      * rewrite E2, E1, app_assoc. reflexivity.
      * apply Forall_app. split.
        -- eapply pushedFrom_incl; [| exact F1]. apply incl_appl, incl_refl.
        -- eapply pushedFrom_incl; [| exact F2]. apply incl_appr, incl_refl.
Qed.

Lemma walk_pushes (baseDir dir : Path) (entries : list Entry) :
  forall s, exists added,
    tracks (walk uuidv4 baseDir dir entries s) = tracks s ++ added /\
    Forall (pushedFrom (flat_map fileNames entries)) added.
Proof.
  unfold walk. induction entries as [|e entries IH]; intros s; simpl.
  - exists []. split; [symmetry; apply app_nil_r | constructor].
  - destruct (walkEntry_pushes baseDir e dir s) as (added1 & E1 & F1).
    destruct (IH (walkEntry uuidv4 baseDir dir e s)) as (added2 & E2 & F2).
    exists (added1 ++ added2). split.
    + rewrite E2, E1, app_assoc. reflexivity.
    + apply Forall_app. split.
      * eapply pushedFrom_incl; [| exact F1]. apply incl_appl, incl_refl.
      * eapply pushedFrom_incl; [| exact F2]. apply incl_appr, incl_refl.
Qed.

(** [indexLibrary] starts from an empty array, so everything on [tracks]
    afterwards was pushed by the walk. *)
Lemma indexLibrary_pushes (baseDir : Path) (entries : list Entry) (s : State) :
  Forall (pushedFrom (flat_map fileNames entries))
         (tracks (indexLibrary uuidv4 baseDir entries s)).
Proof.
  unfold indexLibrary.
  destruct (walk_pushes baseDir baseDir entries (mkState [] (uuidCount s)))
    as (added & E & F).
  rewrite E. exact F.
Qed.

End ServerFacts.

(** C2.  [indexLibrary] puts no file on [tracks] whose name is free of
    backslashes: every track it leaves has the name of a file of the
    directory tree and that name holds a backslash.  So after indexing a
    directory in which no file name holds a backslash, [tracks] is empty. *)
Theorem indexLibrary_ordinary_names
    (uuidv4 : nat -> string) (baseDir : Server.Path)
    (entries : list Server.Entry) (s : Server.State) :
  (forall t, In t (Server.tracks (Server.indexLibrary uuidv4 baseDir entries s)) ->
     In (Server.name t) (flat_map Server.fileNames entries) /\
     Server.containsBackslash (Server.name t) = true) /\
  ((forall f, In f (flat_map Server.fileNames entries) ->
      Server.containsBackslash f = false) ->
   Server.tracks (Server.indexLibrary uuidv4 baseDir entries s) = []).
Proof.
  pose proof (indexLibrary_pushes uuidv4 baseDir entries s) as Hall.
  rewrite Forall_forall in Hall.
  assert (H1 : forall t,
             In t (Server.tracks (Server.indexLibrary uuidv4 baseDir entries s)) ->
             In (Server.name t) (flat_map Server.fileNames entries) /\
             Server.containsBackslash (Server.name t) = true).
  { intros t Ht. destruct (Hall t Ht) as [Hin Hm].
    split; [exact Hin | apply matchAudio_backslash; exact Hm]. }
  split; [exact H1 |].
  intros Hord.
  destruct (Server.tracks (Server.indexLibrary uuidv4 baseDir entries s))
    as [|t l]; [reflexivity |].
  destruct (H1 t (or_introl eq_refl)) as [Hin Hb].
  rewrite (Hord _ Hin) in Hb. discriminate.
Qed.

Lemma indexLibrary_ordinary_names_witness :
  (forall f, In f (flat_map Server.fileNames Samples.ordinaryDir) ->
     Server.containsBackslash f = false) /\
  Server.tracks (Server.indexLibrary Samples.uuids Samples.musicDir
                   Samples.ordinaryDir Server.initial) = [].
Proof.
  assert (Hord : forall f, In f (flat_map Server.fileNames Samples.ordinaryDir) ->
                   Server.containsBackslash f = false).
  { intros f Hf. simpl in Hf.
    repeat (destruct Hf as [<- | Hf]; [reflexivity |]). contradiction. }
  split; [exact Hord |].
  apply (indexLibrary_ordinary_names Samples.uuids Samples.musicDir
           Samples.ordinaryDir Server.initial).
  exact Hord.
Defined.

(** The index of a directory that holds a name the filter accepts. *)
Example indexLibrary_oddDir :
  Server.tracks (Server.indexLibrary Samples.uuids Samples.musicDir
                   Samples.oddDir Server.initial)
  = [Server.mkTrack "1b9d6bcd" "b\.flac"
       [""; "music"; "album"; "b\.flac"]%string ["album"; "b\.flac"]%string].
Proof. reflexivity. Qed.

(** C8 (as the code has it).  The library route is [GET /api/library]; it
    answers with a JSON array that has one element per entry of [tracks],
    and every element is an object with exactly the four fields [id],
    [name], [path] and [relPath]. *)
Theorem getLibrary_fields (s : Server.State) :
  exists l,
    Server.get ["api"; "library"]%string s = Server.SendJson (Server.JArray l) /\
    List.length l = List.length (Server.tracks s) /\
    Forall (fun j =>
              (exists fields, j = Server.JObject fields) /\
              Server.fieldNames j = ["id"; "name"; "path"; "relPath"]%string) l.
Proof.
  exists (map Server.trackJson (Server.tracks s)).
  split; [reflexivity |]. split; [apply length_map |].
  apply Forall_forall. intros j Hj. apply in_map_iff in Hj.
  destruct Hj as (t & <- & _). split; [eexists; reflexivity | reflexivity].
Qed.

(** C8 as stated fails: after indexing a directory with one accepted file,
    the element the library route returns has the fields [id], [name],
    [path] and [relPath]; none is called [relativePath], and [path] is a
    fourth one.  A request for [/library] itself matches no route. *)
Lemma getLibrary_fields_counterexample :
  let s := Server.indexLibrary Samples.uuids Samples.musicDir
             Samples.oddDir Server.initial in
  Server.get ["api"; "library"]%string s =
    Server.SendJson (Server.JArray
      [Server.JObject [("id", Server.JString "1b9d6bcd");
                       ("name", Server.JString "b\.flac");
                       ("path", Server.JString "/music/album/b\.flac");
                       ("relPath", Server.JString "album/b\.flac")]%string]) /\
  ~ In "relativePath"%string
       (Server.fieldNames (Server.trackJson
          (Server.mkTrack "1b9d6bcd" "b\.flac"
             [""; "music"; "album"; "b\.flac"]%string
             ["album"; "b\.flac"]%string))) /\
  In "path"%string
     (Server.fieldNames (Server.trackJson
        (Server.mkTrack "1b9d6bcd" "b\.flac"
           [""; "music"; "album"; "b\.flac"]%string
           ["album"; "b\.flac"]%string))) /\
  Server.get ["library"]%string s = Server.Status 404 "Cannot GET".
Proof.
  cbv zeta. split; [reflexivity |]. split; [| split; [| reflexivity]].
  - simpl. intros H.
    repeat (destruct H as [H | H]; [discriminate H |]). exact H.
  - simpl. right. right. left. reflexivity.
Qed.

(* ================================================================== *)
(** * Further properties of the sequencer *)
(* ================================================================== *)

(** Setting the index twice keeps the second value; setting it to what it
    is changes nothing. *)
Lemma setIndex_setIndex {X} (s : State X) (a b : Z) :
  setIndex a (setIndex b s) = setIndex a s.
Proof. reflexivity. Qed.

Lemma setIndex_same {X} (s : State X) : setIndex (index s) s = s.
Proof. destruct s; reflexivity. Qed.

(** With shuffle off and repeat-all, on a valid selection, [nextIndex]
    steps forward and [prevIndex] backward modulo the length. *)
Lemma nextIndex_repeat_all {X} (s : State X) (fuel : nat) (rnd : nat -> Q) :
  shuffle s = false -> repeatMode s = All -> 0 <= index s < count s ->
  nextIndex fuel rnd s = Some ((index s + 1) mod count s).
Proof.
  intros Hsh Hall Hi.
  assert (H : shuffle s && (1 <? count s) = false) by (rewrite Hsh; reflexivity).
  rewrite (nextIndex_no_shuffle s fuel rnd H), Hall. simpl. f_equal.
  destruct (Z.ltb_spec (index s + 1) (count s)).
  - symmetry. apply Z.mod_small. lia.
  - replace (index s + 1) with (count s) by lia. symmetry. apply Z.mod_same. lia.
Qed.

Lemma prevIndex_repeat_all {X} (s : State X) (fuel : nat) (rnd : nat -> Q) :
  shuffle s = false -> repeatMode s = All -> 0 <= index s < count s ->
  prevIndex fuel rnd s = Some ((index s - 1) mod count s).
Proof.
  intros Hsh Hall Hi.
  assert (H : shuffle s && (1 <? count s) = false) by (rewrite Hsh; reflexivity).
  rewrite (prevIndex_no_shuffle s fuel rnd H), Hall. simpl. f_equal.
  destruct (Z.ltb_spec 0 (index s)).
  - symmetry. apply Z.mod_small. lia.
  - replace (index s - 1) with (-1) by lia.
    apply Z.mod_unique with (q := -1); lia.
Qed.

(** With shuffle and repeat off, [nextIndex] steps forward up to the last
    track and stays there. *)
Lemma nextIndex_repeat_off {X} (s : State X) (fuel : nat) (rnd : nat -> Q) :
  shuffle s = false -> repeatMode s = Off -> index s < count s ->
  nextIndex fuel rnd s = Some (Z.min (index s + 1) (count s - 1)).
Proof.
  intros Hsh Hoff Hi.
  assert (H : shuffle s && (1 <? count s) = false) by (rewrite Hsh; reflexivity).
  rewrite (nextIndex_no_shuffle s fuel rnd H), Hoff. simpl. f_equal.
  destruct (Z.ltb_spec (index s + 1) (count s)); lia.
Qed.

(** X1.  On a non-empty playlist with the selection inside it, every index
    [nextIndex] or [prevIndex] returns lies inside the playlist again, for
    every shuffle flag, repeat mode and sequence of draws (binary64 values
    in [[0, 1)], whose product with the length is rounded as the code's
    is). *)
Theorem sequencer_stays_in_range {X} (s : State X) (fuel : nat)
    (rnd : nat -> Q) (r : Z) :
  (forall k, isDraw (rnd k)) ->
  0 <= index s < count s ->
  (nextIndex fuel rnd s = Some r -> 0 <= r < count s) /\
  (prevIndex fuel rnd s = Some r -> 0 <= r < count s).
Proof.
  intros Hrnd Hi.
  assert (Hdraw : drawOther fuel rnd 0 (count s) (index s) = Some r ->
                  0 <= r < count s).
  { intros H. apply drawOther_sound in H. destruct H as [_ [j ->]].
    apply randomIndex_range; [apply Hrnd | lia]. }
  split; intros H.
  - unfold nextIndex in H.
    destruct (isOne (repeatMode s)); [injection H as <-; exact Hi |].
    destruct (shuffle s && (1 <? count s)); [exact (Hdraw H) |].
    destruct (Z.ltb_spec (index s + 1) (count s)); injection H as <-; [lia |].
    destruct (isAll (repeatMode s)); lia.
  - unfold prevIndex in H.
    destruct (shuffle s && (1 <? count s)); [exact (Hdraw H) |].
    injection H as <-.
    destruct (Z.ltb_spec 0 (index s)); [lia |].
    destruct (isAll (repeatMode s)); lia.
Qed.

Lemma sequencer_stays_in_range_witness :
  let s := Samples.three App.initial 2 true All in
  let rnd := Samples.always Samples.third in
  (forall k, isDraw (rnd k)) /\
  0 <= index s < count s /\
  nextIndex 1 rnd s = Some 1 /\ 0 <= 1 < count s.
Proof.
  intros s rnd.
  assert (Hrnd : forall k, isDraw (rnd k)) by (intros k; exact isDraw_third).
  assert (Hi : 0 <= index s < count s) by (split; [discriminate | reflexivity]).
  assert (Hn : nextIndex 1 rnd s = Some 1) by (vm_compute; reflexivity).
  split; [exact Hrnd |]. split; [exact Hi |]. split; [exact Hn |].
  exact (proj1 (sequencer_stays_in_range s 1%nat rnd 1 Hrnd Hi) Hn).
Defined.

(** X2.  In the second version of the component, with shuffle off and
    repeat-all, on a valid selection, the next-track and previous-track
    buttons undo each other: pressing one and then the other gives back the
    state before. *)
Theorem next_prev_inverse (s : Modern.St) (fuel : nat) (rnd rnd' : nat -> Q) :
  shuffle s = false -> repeatMode s = All -> 0 <= index s < count s ->
  Modern.clickNextPrev fuel rnd rnd' s = Some s /\
  Modern.clickPrevNext fuel rnd rnd' s = Some s.
Proof.
  intros Hsh Hall Hi.
  assert (Hc : 0 < count s) by lia.
  assert (Hup : ((index s + 1) mod count s - 1) mod count s = index s).
  { rewrite Zminus_mod_idemp_l.
    replace (index s + 1 - 1) with (index s) by lia.
    apply Z.mod_small. exact Hi. }
  assert (Hdown : ((index s - 1) mod count s + 1) mod count s = index s).
  { rewrite Zplus_mod_idemp_l.
    replace (index s - 1 + 1) with (index s) by lia.
    apply Z.mod_small. exact Hi. }
  split.
  - unfold Modern.clickNextPrev, clickNext.
    rewrite nextIndex_repeat_all by assumption. cbn [option_map].
    unfold clickPrev.
    rewrite prevIndex_repeat_all;
      [| exact Hsh | exact Hall
       | change (0 <= (index s + 1) mod count s < count s);
         apply Z.mod_pos_bound; exact Hc].
    change (Some (setIndex (((index s + 1) mod count s - 1) mod count s) s)
            = Some s).
    rewrite Hup, setIndex_same. reflexivity.
  - unfold Modern.clickPrevNext, clickPrev.
    rewrite prevIndex_repeat_all by assumption. cbn [option_map].
    unfold clickNext.
    rewrite nextIndex_repeat_all;
      [| exact Hsh | exact Hall
       | change (0 <= (index s - 1) mod count s < count s);
         apply Z.mod_pos_bound; exact Hc].
    change (Some (setIndex (((index s - 1) mod count s + 1) mod count s) s)
            = Some s).
    rewrite Hdown, setIndex_same. reflexivity.
Qed.

Lemma next_prev_inverse_witness :
  let s := Samples.three Modern.initial 2 false All in
  shuffle s = false /\ repeatMode s = All /\ 0 <= index s < count s /\
  option_map index (clickNext 0 (Samples.always 0) s) = Some 0 /\
  Modern.clickNextPrev 0 (Samples.always 0) (Samples.always 0) s = Some s.
Proof.
  intros s.
  assert (Hi : 0 <= index s < count s) by (split; [discriminate | reflexivity]).
  split; [reflexivity |]. split; [reflexivity |]. split; [exact Hi |].
  split; [reflexivity |].
  exact (proj1 (next_prev_inverse s 0%nat (Samples.always 0) (Samples.always 0)
                  eq_refl eq_refl Hi)).
Defined.

(** X3.  In the second version of the component, with shuffle off and
    repeat-all, on a valid selection, pressing the next-track button [n]
    times moves the selection [n] places forward around the playlist and
    changes nothing else; as many presses as there are tracks give back the
    state before. *)
Theorem clickNextAll_repeat_all (fuel : nat) (rnds : list (nat -> Q)) :
  forall s : Modern.St,
  shuffle s = false -> repeatMode s = All -> 0 <= index s < count s ->
  Modern.clickNextAll fuel rnds s =
    Some (setIndex ((index s + Z.of_nat (List.length rnds)) mod count s) s) /\
  (Z.of_nat (List.length rnds) = count s ->
   Modern.clickNextAll fuel rnds s = Some s).
Proof.
  assert (Hmain : forall s : Modern.St,
    shuffle s = false -> repeatMode s = All -> 0 <= index s < count s ->
    Modern.clickNextAll fuel rnds s =
      Some (setIndex ((index s + Z.of_nat (List.length rnds)) mod count s) s)).
  { induction rnds as [|rnd rnds IH]; intros s Hsh Hall Hi.
    - simpl. rewrite Z.add_0_r, Z.mod_small by exact Hi.
      rewrite setIndex_same. reflexivity.
    - cbn [Modern.clickNextAll]. unfold clickNext.
      rewrite nextIndex_repeat_all by assumption. cbn [option_map].
      rewrite IH;
        [| exact Hsh | exact Hall
         | change (0 <= (index s + 1) mod count s < count s);
           apply Z.mod_pos_bound; lia].
      change (Some (setIndex
                      (((index s + 1) mod count s + Z.of_nat (List.length rnds))
                         mod count s) s) =
              Some (setIndex
                      ((index s + Z.of_nat (List.length (rnd :: rnds)))
                         mod count s) s)).
      rewrite Zplus_mod_idemp_l. do 3 f_equal.
      cbn [List.length]. lia. }
  intros s Hsh Hall Hi. split; [apply Hmain; assumption |].
  intros Hn. rewrite Hmain by assumption. rewrite Hn.
  replace ((index s + count s) mod count s) with (index s).
  - rewrite setIndex_same. reflexivity.
  - replace (index s + count s) with (index s + 1 * count s) by lia.
    rewrite Z_mod_plus_full. symmetry. apply Z.mod_small. exact Hi.
Qed.

Lemma clickNextAll_repeat_all_witness :
  let s := Samples.three Modern.initial 1 false All in
  let rnds := [Samples.always 0; Samples.always 0; Samples.always 0] in
  shuffle s = false /\ repeatMode s = All /\ 0 <= index s < count s /\
  Z.of_nat (List.length rnds) = count s /\
  option_map index (Modern.clickNextAll 0 [Samples.always 0; Samples.always 0] s)
    = Some 0 /\
  Modern.clickNextAll 0 rnds s = Some s.
Proof.
  intros s rnds.
  assert (Hi : 0 <= index s < count s) by (split; [discriminate | reflexivity]).
  split; [reflexivity |]. split; [reflexivity |]. split; [exact Hi |].
  split; [reflexivity |]. split; [reflexivity |].
  exact (proj2 (clickNextAll_repeat_all 0%nat rnds s eq_refl eq_refl Hi) eq_refl).
Defined.

(** X4.  In the second version of the component, with shuffle and repeat
    off, on a valid selection, pressing the next-track button [n] times
    moves the selection [n] places forward but not past the last track,
    where it stays. *)
Theorem clickNextAll_repeat_off (fuel : nat) (rnds : list (nat -> Q)) :
  forall s : Modern.St,
  shuffle s = false -> repeatMode s = Off -> 0 <= index s < count s ->
  Modern.clickNextAll fuel rnds s =
    Some (setIndex (Z.min (index s + Z.of_nat (List.length rnds))
                          (count s - 1)) s).
Proof.
  induction rnds as [|rnd rnds IH]; intros s Hsh Hoff Hi.
  - simpl. rewrite Z.add_0_r, Z.min_l by lia.
    rewrite setIndex_same. reflexivity.
  - cbn [Modern.clickNextAll]. unfold clickNext.
    rewrite nextIndex_repeat_off by (assumption || lia). cbn [option_map].
    rewrite IH; [| exact Hsh | exact Hoff |].
    + change (Some (setIndex
                      (Z.min (Z.min (index s + 1) (count s - 1)
                              + Z.of_nat (List.length rnds)) (count s - 1)) s) =
              Some (setIndex
                      (Z.min (index s + Z.of_nat (List.length (rnd :: rnds)))
                             (count s - 1)) s)).
      do 2 f_equal. cbn [List.length]. lia.
    + change (0 <= Z.min (index s + 1) (count s - 1) < count s). lia.
Qed.

Lemma clickNextAll_repeat_off_witness :
  let s := Samples.three Modern.initial 0 false Off in
  let rnds := [Samples.always 0; Samples.always 0; Samples.always 0] in
  shuffle s = false /\ repeatMode s = Off /\ 0 <= index s < count s /\
  option_map index (Modern.clickNextAll 0 [Samples.always 0] s) = Some 1 /\
  option_map index (Modern.clickNextAll 0 rnds s) = Some 2.
Proof.
  intros s rnds.
  assert (Hi : 0 <= index s < count s) by (split; [discriminate | reflexivity]).
  split; [reflexivity |]. split; [reflexivity |]. split; [exact Hi |].
  split; [reflexivity |].
  rewrite (clickNextAll_repeat_off 0%nat rnds s eq_refl eq_refl Hi).
  reflexivity.
Defined.

(** X5.  When a track ends, the listener of the [ended] event decides with
    the shuffle flag of the render [r] that registered it (the effect does
    not depend on [shuffle], so a later click on the shuffle button does not
    reach the listener).  Playback stops exactly when repeat is off, the
    shuffle branch of that render is not taken (its shuffle flag off, or at
    most one track) and no track follows the current one; the selection
    then stays where it is.  In every other case the listener selects what
    its [nextIndex] returned and keeps playing; in the shuffle branch that
    is another track. *)
Theorem onEnd_stops_iff {X} (r s s' : State X) (fuel : nat) (rnd : nat -> Q) :
  listenerRender r s ->
  onEnd fuel rnd r s = Some s' ->
  (playing s' = false <->
     repeatMode s = Off /\
     shuffle r && (1 <? count s) = false /\
     count s <= index s + 1) /\
  (playing s' = false -> s' = setPlaying false s) /\
  (playing s' = true ->
     nextIndex fuel rnd r = Some (index s') /\ shuffle s' = shuffle s) /\
  (shuffle r && (1 <? count s) = true -> repeatMode s <> One ->
     playing s' = true /\ index s' <> index s).
Proof.
  intros (Ei & Em & Ec). unfold onEnd.
  destruct (nextIndex fuel rnd r) as [next|] eqn:Hn; [| discriminate].
  set (b := (next =? index r) && isOff (repeatMode r)).
  intros H. injection H as <-.
  rewrite <- Ec, <- Ei, <- Em.
  assert (Hshuffle : shuffle r && (1 <? count r) = true -> repeatMode r <> One ->
                     next <> index r).
  { intros Hb Hm. rewrite (nextIndex_shuffle r fuel rnd Hb Hm) in Hn.
    apply drawOther_sound in Hn. tauto. }
  assert (Hb : b = true <->
               repeatMode r = Off /\
               shuffle r && (1 <? count r) = false /\
               count r <= index r + 1).
  { unfold b. split.
    - intros H. apply andb_prop in H. destruct H as [He Hoff].
      apply Z.eqb_eq in He.
      assert (Hm : repeatMode r = Off)
        by (destruct (repeatMode r); discriminate || reflexivity).
      split; [exact Hm |].
      destruct (shuffle r && (1 <? count r)) eqn:Hbr.
      + exfalso. apply Hshuffle; [reflexivity | rewrite Hm; discriminate | exact He].
      + split; [reflexivity |].
        rewrite (nextIndex_no_shuffle r fuel rnd Hbr), Hm in Hn. simpl in Hn.
        destruct (Z.ltb_spec (index r + 1) (count r)); [| lia].
        injection Hn as Hn. lia.
    - intros (Hm & Hbr & Hlast).
      rewrite (nextIndex_no_shuffle r fuel rnd Hbr), Hm in Hn. simpl in Hn.
      replace (index r + 1 <? count r) with false in Hn
        by (symmetry; apply Z.ltb_ge; lia).
      injection Hn as <-. rewrite Hm, Z.eqb_refl. reflexivity. }
  destruct b eqn:Eb; cbn.
  - split; [split; [intros _; apply Hb; reflexivity | reflexivity] |].
    split; [reflexivity |]. split; [discriminate |].
    intros Hbr Hm. exfalso.
    destruct (proj1 Hb eq_refl) as (_ & Hbr' & _). congruence.
  - split; [split; [discriminate | intros H; apply Hb in H; discriminate] |].
    split; [discriminate |]. split; [intros _; split; reflexivity |].
    intros Hbr Hm. split; [reflexivity |]. apply Hshuffle; assumption.
Qed.

Lemma onEnd_stops_iff_witness :
  let r := setPlaying true (Samples.three Modern.initial 2 false Off) in
  let s := setShuffle true r in
  listenerRender r s /\
  onEnd 0 (Samples.always 0) r s = Some (setPlaying false s) /\
  (playing (setPlaying false s) = false <->
     repeatMode s = Off /\
     shuffle r && (1 <? count s) = false /\
     count s <= index s + 1).
Proof.
  intros r s.
  assert (Hl : listenerRender r s) by (repeat split; reflexivity).
  assert (H : onEnd 0 (Samples.always 0) r s = Some (setPlaying false s))
    by reflexivity.
  split; [exact Hl |]. split; [exact H |].
  exact (proj1 (onEnd_stops_iff r s (setPlaying false s) 0%nat
                  (Samples.always 0) Hl H)).
Defined.

(* ================================================================== *)
(** * Further properties of the playlist handlers *)
(* ================================================================== *)

(** [findIndex] splits a list that holds a match at the first match. *)
Lemma findIndexFrom_split {A} (f : A -> bool) (l : list A) :
  forall k, existsb f l = true ->
  exists l1 x l2,
    l = l1 ++ x :: l2 /\ f x = true /\
    (forall y, In y l1 -> f y = false) /\
    findIndexFrom f l k = k + Z.of_nat (List.length l1).
Proof.
  induction l as [|a l IH]; intros k H; simpl in H; [discriminate |].
  destruct (f a) eqn:Ha.
  - exists [], a, l. simpl.
    split; [reflexivity |]. split; [exact Ha |].
    split; [intros y [] | rewrite Ha; lia].
  - simpl in H. destruct (IH (k + 1) H) as (l1 & x & l2 & -> & Hx & Hl1 & Hidx).
    exists (a :: l1), x, l2. simpl.
    split; [reflexivity |]. split; [exact Hx |].
    split; [| rewrite Ha, Hidx; lia].
    intros y [<- | Hy]; [exact Ha | apply Hl1; exact Hy].
Qed.

(** The filter of [removeTrack] keeps a list that does not hold the
    identifier. *)
Lemma filter_absent (i : string) (l : list Track) :
  (forall y, In y l -> (id y =? i)%string = false) ->
  filter (fun t => negb (id t =? i)%string) l = l.
Proof.
  induction l as [|a l IH]; intros H; simpl; [reflexivity |].
  rewrite (H a (or_introl eq_refl)). simpl. f_equal.
  apply IH. intros y Hy. apply H. right. exact Hy.
Qed.

Lemma absent_eqb (i : string) (l : list Track) :
  ~ In i (map id l) -> forall y, In y l -> (id y =? i)%string = false.
Proof.
  intros H y Hy. apply String.eqb_neq. intros E. apply H.
  apply in_map_iff. exists y. split; assumption.
Qed.

(** A playlist with unique identifiers, split at the entry with identifier
    [i]: no other entry has it. *)
Lemma unique_id_split (l1 l2 : list Track) (x : Track) :
  NoDup (map id (l1 ++ x :: l2)) ->
  forall y, In y (l1 ++ l2) -> (id y =? id x)%string = false.
Proof.
  intros Hnd. rewrite map_app in Hnd. simpl in Hnd.
  apply NoDup_remove_2 in Hnd. rewrite <- map_app in Hnd.
  apply absent_eqb. exact Hnd.
Qed.

(** The second version's [removeTrack] on a playlist with unique
    identifiers that holds [i] at position [|l1|]. *)
Lemma Modern_removeTrack_shape (s : Modern.St) (l1 l2 : list Track) (x : Track) :
  tracks s = l1 ++ x :: l2 ->
  NoDup (map id (tracks s)) ->
  let n1 := Z.of_nat (List.length l1) in
  let n := Z.of_nat (List.length (l1 ++ l2)) in
  Modern.removeTrack (id x) s =
  setTracks (l1 ++ l2)
    (if n1 =? index s
     then setPlaying false (setIndex (Z.max 0 (Z.min n1 (n - 1))) s)
     else if n1 <? index s then setIndex (Z.max 0 (index s - 1)) s else s).
Proof.
  intros Ht Hnd n1 n. rewrite Ht in Hnd.
  pose proof (unique_id_split l1 l2 x Hnd) as Hfree.
  assert (Hf : filter (fun t => negb (id t =? id x)%string) (tracks s) = l1 ++ l2).
  { rewrite Ht, filter_app. simpl. rewrite String.eqb_refl. simpl.
    rewrite <- filter_app. apply filter_absent. exact Hfree. }
  assert (Hidx : findIndex (fun t => (id t =? id x)%string) (tracks s) = n1).
  { rewrite Ht. unfold findIndex. clear -Hfree.
    assert (Hl1 : forall y, In y l1 -> (id y =? id x)%string = false)
      by (intros y Hy; apply Hfree, in_or_app; left; exact Hy).
    assert (G : forall k, findIndexFrom (fun t => (id t =? id x)%string)
                            (l1 ++ x :: l2) k = k + Z.of_nat (List.length l1)).
    { clear Hfree. induction l1 as [|a l1 IH]; intros k; simpl.
      - rewrite String.eqb_refl. lia.
      - rewrite (Hl1 a (or_introl eq_refl)).
        rewrite IH by (intros y Hy; apply Hl1; right; exact Hy). lia. }
    apply G. }
  unfold Modern.removeTrack. cbv zeta. rewrite Hf, Hidx. reflexivity.
Qed.

(** X6.  In the second version of the component, removing a track other
    than the selected one from a playlist with unique identifiers leaves the
    same track selected, and leaves the playing flag alone. *)
Theorem Modern_removeTrack_keeps_current (s : Modern.St) (i : string) (t : Track) :
  NoDup (map id (tracks s)) ->
  In i (map id (tracks s)) ->
  current s = Some t ->
  id t <> i ->
  current (Modern.removeTrack i s) = Some t /\
  playing (Modern.removeTrack i s) = playing s.
Proof.
  intros Hnd Hin Hcur Hne.
  destruct (findIndexFrom_split (fun u => (id u =? i)%string) (tracks s) 0
              (existsb_id i (tracks s) Hin))
    as (l1 & x & l2 & Ht & Hx & _ & _).
  apply String.eqb_eq in Hx. subst i.
  rewrite (Modern_removeTrack_shape s l1 l2 x Ht Hnd).
  unfold current in Hcur.
  destruct (Z.ltb_spec (index s) 0) as [| Hi0]; [discriminate |].
  rewrite Ht in Hcur.
  destruct (Z.eqb_spec (Z.of_nat (List.length l1)) (index s)) as [E | NE].
  - exfalso. rewrite <- E, Nat2Z.id, nth_error_app2, Nat.sub_diag in Hcur by lia.
    simpl in Hcur. injection Hcur as <-. apply Hne. reflexivity.
  - destruct (Z.ltb_spec (Z.of_nat (List.length l1)) (index s)) as [Hlt | Hge].
    + split; [| reflexivity]. unfold current. cbn.
      destruct (Z.ltb_spec (Z.max 0 (index s - 1)) 0); [lia |].
      rewrite Z.max_r by lia.
      rewrite nth_error_app2 in Hcur by lia.
      rewrite nth_error_app2 by lia.
      replace (Z.to_nat (index s) - List.length l1)%nat
        with (S (Z.to_nat (index s - 1) - List.length l1)) in Hcur by lia.
      exact Hcur.
    + split; [| reflexivity]. unfold current. cbn.
      destruct (Z.ltb_spec (index s) 0); [lia |].
      rewrite nth_error_app1 in Hcur by lia.
      rewrite nth_error_app1 by lia. exact Hcur.
Qed.

Lemma Modern_removeTrack_keeps_current_witness :
  let s := setPlaying true (Samples.three Modern.initial 2 false Off) in
  NoDup (map id (tracks s)) /\ In "a"%string (map id (tracks s)) /\
  current s = Some Samples.trackC /\ id Samples.trackC <> "a"%string /\
  current (Modern.removeTrack "a" s) = Some Samples.trackC /\
  playing (Modern.removeTrack "a" s) = playing s.
Proof.
  intros s.
  assert (Hnd : NoDup (map id (tracks s))).
  { repeat constructor; simpl; intros H;
      repeat (destruct H as [H | H]; [discriminate H |]); exact H. }
  assert (Hin : In "a"%string (map id (tracks s))) by (left; reflexivity).
  assert (Hne : id Samples.trackC <> "a"%string) by discriminate.
  split; [exact Hnd |]. split; [exact Hin |]. split; [reflexivity |].
  split; [exact Hne |].
  exact (Modern_removeTrack_keeps_current s "a" Samples.trackC Hnd Hin eq_refl Hne).
Defined.

(** X7.  In the second version of the component, [removeTrack] keeps the
    selection valid: on a playlist with unique identifiers, if the index
    points into the playlist (or is [0] on an empty one) before, it does so
    afterwards, whether or not the identifier is in the playlist. *)
Theorem Modern_removeTrack_wellSelected (s : Modern.St) (i : string) :
  NoDup (map id (tracks s)) ->
  wellSelected s ->
  wellSelected (Modern.removeTrack i s).
Proof.
  intros Hnd Hw.
  destruct (existsb (fun u => (id u =? i)%string) (tracks s)) eqn:Hex.
  - destruct (findIndexFrom_split _ _ 0 Hex) as (l1 & x & l2 & Ht & Hx & _ & _).
    apply String.eqb_eq in Hx. subst i.
    rewrite (Modern_removeTrack_shape s l1 l2 x Ht Hnd).
    assert (Hc : count s = Z.of_nat (List.length (l1 ++ l2)) + 1).
    { unfold count. rewrite Ht, !length_app. simpl. lia. }
    destruct Hw as [[H0 _] | Hi]; [lia |].
    rewrite length_app in *.
    unfold wellSelected, count.
    destruct (Z.eqb_spec (Z.of_nat (List.length l1)) (index s));
      [| destruct (Z.ltb_spec (Z.of_nat (List.length l1)) (index s))];
      cbn; rewrite length_app; lia.
  - assert (Hfree : forall y, In y (tracks s) -> (id y =? i)%string = false).
    { intros y Hy. destruct (id y =? i)%string eqn:E; [| reflexivity].
      rewrite <- Hex. symmetry. apply existsb_exists. exists y. split; assumption. }
    unfold Modern.removeTrack. cbv zeta.
    rewrite (filter_absent i (tracks s) Hfree).
    unfold findIndex. rewrite (findIndexFrom_absent _ _ 0 Hex).
    unfold wellSelected, count in *.
    destruct (Z.eqb_spec (-1) (index s)); [lia |].
    destruct (Z.ltb_spec (-1) (index s)); cbn; lia.
Qed.

Lemma Modern_removeTrack_wellSelected_witness :
  let s := Samples.three Modern.initial 2 false Off in
  NoDup (map id (tracks s)) /\ wellSelected s /\
  wellSelected (Modern.removeTrack "c" s) /\
  index (Modern.removeTrack "c" s) = 1.
Proof.
  intros s.
  assert (Hnd : NoDup (map id (tracks s))).
  { repeat constructor; simpl; intros H;
      repeat (destruct H as [H | H]; [discriminate H |]); exact H. }
  assert (Hw : wellSelected s).
  { right. split; [discriminate | reflexivity]. }
  split; [exact Hnd |]. split; [exact Hw |].
  split; [exact (Modern_removeTrack_wellSelected s "c" Hnd Hw) | reflexivity].
Defined.

Lemma Modern_removeTrack_spec_witness :
  let s := setPlaying true (Samples.three Modern.initial 1 false Off) in
  In "b"%string (map id (tracks s)) /\
  findIndex (fun t => (id t =? "b")%string) (tracks s) = index s /\
  index (Modern.removeTrack "b" s) = 1 /\
  playing (Modern.removeTrack "b" s) = false.
Proof.
  intros s.
  assert (Hin : In "b"%string (map id (tracks s))) by (right; left; reflexivity).
  split; [exact Hin |]. split; [reflexivity |].
  destruct (Modern_removeTrack_spec s "b" Hin) as (_ & _ & _ & Hcur & _).
  exact (Hcur eq_refl).
Defined.

(** X9.  Removing an identifier that is not in the playlist: [src/App.jsx]
    leaves the whole state as it is.  The second version leaves the
    playlist as it is, but [findIndex] answers [-1], which is below every
    valid index: the selection moves back by one place (staying at [0]),
    and from the index [-1] it is reset to [0] with playback stopped. *)
Theorem removeTrack_absent_id (a : App.St) (m : Modern.St) (i : string) :
  ~ In i (map id (tracks a)) ->
  ~ In i (map id (tracks m)) ->
  App.removeTrack i a = a /\
  tracks (Modern.removeTrack i m) = tracks m /\
  (0 <= index m ->
     Modern.removeTrack i m = setIndex (Z.max 0 (index m - 1)) m) /\
  (index m = -1 ->
     index (Modern.removeTrack i m) = 0 /\
     playing (Modern.removeTrack i m) = false).
Proof.
  intros Ha Hm.
  assert (Hfa := filter_absent i (tracks a) (absent_eqb i (tracks a) Ha)).
  assert (Hfm := filter_absent i (tracks m) (absent_eqb i (tracks m) Hm)).
  assert (Hidx : findIndex (fun t => (id t =? i)%string) (tracks m) = -1).
  { unfold findIndex. apply findIndexFrom_absent.
    destruct (existsb (fun t => (id t =? i)%string) (tracks m)) eqn:E;
      [| reflexivity].
    apply existsb_exists in E. destruct E as (y & Hy & Ey).
    rewrite (absent_eqb i (tracks m) Hm y Hy) in Ey. discriminate. }
  split; [| split; [| split]].
  - unfold App.removeTrack. rewrite Hfa. destruct a; reflexivity.
  - unfold Modern.removeTrack. cbv zeta. rewrite Hfm. reflexivity.
  - intros Hi. unfold Modern.removeTrack. cbv zeta. rewrite Hfm, Hidx.
    replace (-1 =? index m) with false by (symmetry; apply Z.eqb_neq; lia).
    replace (-1 <? index m) with true by (symmetry; apply Z.ltb_lt; lia).
    destruct m; reflexivity.
  - intros Hi. unfold Modern.removeTrack. cbv zeta. rewrite Hfm, Hidx, Hi.
    cbn. split; [lia | reflexivity].
Qed.

Lemma removeTrack_absent_id_witness :
  let a := Samples.three App.initial 2 false Off in
  let m := Samples.three Modern.initial 2 false Off in
  ~ In "zz"%string (map id (tracks a)) /\
  ~ In "zz"%string (map id (tracks m)) /\
  App.removeTrack "zz" a = a /\
  index (Modern.removeTrack "zz" m) = 1 /\
  List.length (tracks (Modern.removeTrack "zz" m)) = 3%nat.
Proof.
  intros a m.
  assert (Ha : ~ In "zz"%string (map id (tracks a))).
  { simpl. intros H.
    repeat (destruct H as [H | H]; [discriminate H |]). exact H. }
  assert (Hm : ~ In "zz"%string (map id (tracks m))).
  { simpl. intros H.
    repeat (destruct H as [H | H]; [discriminate H |]). exact H. }
  split; [exact Ha |]. split; [exact Hm |].
  destruct (removeTrack_absent_id a m "zz" Ha Hm) as (Happ & _ & Hmod & _).
  split; [exact Happ |].
  rewrite (Hmod ltac:(discriminate)). split; reflexivity.
Defined.

(** X10.  A click on a track of the library tree of [src/App.jsx] selects
    the first playlist entry that has the identifier of the track and
    starts playback; when no playlist entry has it the click changes
    nothing. *)
Theorem clickLibraryTrack_selects (s : App.St) (track : Track) :
  (In (id track) (map id (tracks s)) ->
     exists t, current (App.clickLibraryTrack track s) = Some t /\
               id t = id track /\
               playing (App.clickLibraryTrack track s) = true /\
               tracks (App.clickLibraryTrack track s) = tracks s) /\
  (~ In (id track) (map id (tracks s)) ->
     App.clickLibraryTrack track s = s).
Proof.
  split.
  - intros Hin.
    destruct (findIndexFrom_split (fun u => (id u =? id track)%string)
                (tracks s) 0 (existsb_id _ _ Hin))
      as (l1 & x & l2 & Ht & Hx & _ & Hidx).
    assert (Hidx' : findIndex (fun u => (id u =? id track)%string) (tracks s)
                    = Z.of_nat (List.length l1))
      by (unfold findIndex; rewrite Hidx; lia).
    exists x. unfold App.clickLibraryTrack. cbv zeta. rewrite Hidx'.
    replace (0 <=? Z.of_nat (List.length l1)) with true
      by (symmetry; apply Z.leb_le; lia).
    apply String.eqb_eq in Hx.
    split; [| split; [exact Hx | split; reflexivity]].
    unfold current.
    change (index (setPlaying true (setIndex (Z.of_nat (List.length l1)) s)))
      with (Z.of_nat (List.length l1)).
    change (tracks (setPlaying true (setIndex (Z.of_nat (List.length l1)) s)))
      with (tracks s).
    replace (Z.of_nat (List.length l1) <? 0) with false
      by (symmetry; apply Z.ltb_ge; lia).
    rewrite Ht, Nat2Z.id, nth_error_app2, Nat.sub_diag by lia.
    reflexivity.
  - intros Hnot. unfold App.clickLibraryTrack. cbv zeta.
    unfold findIndex. rewrite findIndexFrom_absent; [reflexivity |].
    destruct (existsb (fun t => (id t =? id track)%string) (tracks s)) eqn:E;
      [| reflexivity].
    apply existsb_exists in E. destruct E as (y & Hy & Ey).
    rewrite (absent_eqb _ _ Hnot y Hy) in Ey. discriminate.
Qed.

Lemma clickLibraryTrack_selects_witness :
  let s := Samples.three App.initial 0 false Off in
  In (id Samples.trackB) (map id (tracks s)) /\
  exists t, current (App.clickLibraryTrack Samples.trackB s) = Some t /\
            id t = id Samples.trackB /\
            playing (App.clickLibraryTrack Samples.trackB s) = true /\
            tracks (App.clickLibraryTrack Samples.trackB s) = tracks s.
Proof.
  intros s.
  assert (Hin : In (id Samples.trackB) (map id (tracks s)))
    by (right; left; reflexivity).
  split; [exact Hin |].
  exact (proj1 (clickLibraryTrack_selects s Samples.trackB) Hin).
Defined.

Lemma seekTo_clamps_witness :
  let s := setPlaying true
             (setDuration 180 (Samples.three Modern.initial 0 false Off)) in
  audioRef s = Some (mkAudio 0) /\ (0 <= duration s)%Q /\
  Modern.seekTo 500 s = setAudio (Some (mkAudio (Qmin (Qmax 0 500) 180))) s /\
  Modern.seekTo 75 s = setAudio (Some (mkAudio (Qmin (Qmax 0 75) 180))) s /\
  (exists a', Modern.seekTo 75 s = setAudio (Some a') s /\
              (currentTime a' == 75)%Q) /\
  (exists a', Modern.seekTo 500 s = setAudio (Some a') s /\
              (currentTime a' == 180)%Q).
Proof.
  intros s.
  assert (Hd : (0 <= duration s)%Q) by discriminate.
  split; [reflexivity |]. split; [exact Hd |].
  split; [reflexivity |]. split; [reflexivity |]. split.
  - destruct (seekTo_clamps s 75 (mkAudio 0) eq_refl Hd)
      as (a' & E & _ & _ & Hin & _).
    exists a'. split; [exact E |]. apply Hin; discriminate.
  - destruct (seekTo_clamps s 500 (mkAudio 0) eq_refl Hd)
      as (a' & E & _ & _ & _ & _ & Hbig & _).
    exists a'. split; [exact E |]. apply Hbig. reflexivity.
Defined.

(* ================================================================== *)
(** * Keyboard shortcuts *)
(* ================================================================== *)

(** A property that every update the handler can make preserves is
    preserved by the handler. *)
Lemma onKey_invariant (P : Modern.St -> Prop) (fuel : nat) (rnd : nat -> Q)
    (e : Modern.KeyEvent) (s s' : Modern.St) :
  (forall b u, P u -> P (setPlaying b u)) ->
  (forall i u, P u -> P (setIndex i u)) ->
  (forall u, P u -> P (Modern.arrowRight (duration s) u)) ->
  (forall u, P u -> P (Modern.arrowLeft u)) ->
  (forall u, P u -> P (setVolume (Qmin 1 (volume u + (5 # 100))) u)) ->
  (forall u, P u -> P (setVolume (Qmax 0 (volume u - (5 # 100))) u)) ->
  (forall b u, P u -> P (setShuffle b u)) ->
  (forall u, P u -> P (clickRepeat u)) ->
  Modern.onKey fuel rnd e s = Some s' ->
  P s -> P s'.
Proof.
  intros Hplay Hidx Hright Hleft Hup Hdown Hsh Hrep Hkey HP.
  unfold Modern.onKey in Hkey.
  destruct (Modern.isInput e); [injection Hkey as <-; exact HP |].
  cbv zeta in Hkey.
  set (s1 := if (Modern.code e =? "Space")%string
             then setPlaying (negb (playing s)) s else s) in Hkey.
  assert (H1 : P s1) by (unfold s1; destruct (Modern.code e =? "Space")%string; auto).
  destruct (if (toLowerCase (Modern.key e) =? "n")%string
            then option_map (fun i => setIndex i s1) (nextIndex fuel rnd s)
            else Some s1) as [s2|] eqn:E2; [| discriminate].
  assert (H2 : P s2).
  { destruct (toLowerCase (Modern.key e) =? "n")%string.
    - destruct (nextIndex fuel rnd s); [| discriminate].
      injection E2 as <-. auto.
    - injection E2 as <-. exact H1. }
  destruct (if (toLowerCase (Modern.key e) =? "p")%string
            then option_map (fun i => setIndex i s2) (prevIndex fuel rnd s)
            else Some s2) as [s3|] eqn:E3; [| discriminate].
  assert (H3 : P s3).
  { destruct (toLowerCase (Modern.key e) =? "p")%string.
    - destruct (prevIndex fuel rnd s); [| discriminate].
      injection E3 as <-. auto.
    - injection E3 as <-. exact H2. }
  injection Hkey as <-.
  destruct (toLowerCase (Modern.key e) =? "r")%string; [apply Hrep |];
    (destruct (toLowerCase (Modern.key e) =? "s")%string; [apply Hsh |]);
    (destruct (Modern.key e =? "-")%string; [apply Hdown |]);
    (destruct (Modern.key e =? "+")%string; [apply Hup |]);
    (destruct (Modern.key e =? "ArrowLeft")%string; [apply Hleft |]);
    (destruct (Modern.key e =? "ArrowRight")%string; [apply Hright |]);
    exact H3.
Qed.

(** X11.  However a key press is handled, the volume stays in [[0, 1]] if
    it was there before. *)
Theorem onKey_volume_range (fuel : nat) (rnd : nat -> Q)
    (e : Modern.KeyEvent) (s s' : Modern.St) :
  Modern.onKey fuel rnd e s = Some s' ->
  (0 <= volume s)%Q /\ (volume s <= 1)%Q ->
  (0 <= volume s')%Q /\ (volume s' <= 1)%Q.
Proof.
  intros Hkey.
  apply (onKey_invariant (fun u => (0 <= volume u)%Q /\ (volume u <= 1)%Q)
           fuel rnd e s s'); try exact Hkey; try (intros; assumption).
  - intros u Hu. unfold Modern.arrowRight. destruct (audioRef u); exact Hu.
  - intros u Hu. unfold Modern.arrowLeft. destruct (audioRef u); exact Hu.
  - intros u [H0 H1]. cbn. split; [| apply Q.le_min_l].
    apply Q.min_glb; lra.
  - intros u [H0 H1]. cbn. split; [apply Q.le_max_l |].
    apply Q.max_lub; lra.
Qed.

Lemma onKey_volume_range_witness :
  let s := Samples.three Modern.initial 0 false Off in
  let e := Modern.mkKeyEvent (Some "BODY"%string) "Equal" "+" in
  Modern.onKey 0 (Samples.always 0) e s = Some (setVolume (Qmin 1 ((9 # 10) + (5 # 100))) s) /\
  ((0 <= volume s)%Q /\ (volume s <= 1)%Q) /\
  ((0 <= volume (setVolume (Qmin 1 ((9 # 10) + (5 # 100))) s))%Q /\
   (volume (setVolume (Qmin 1 ((9 # 10) + (5 # 100))) s) <= 1)%Q).
Proof.
  intros s e.
  assert (Hkey : Modern.onKey 0 (Samples.always 0) e s
                 = Some (setVolume (Qmin 1 ((9 # 10) + (5 # 100))) s)) by reflexivity.
  assert (Hv : (0 <= volume s)%Q /\ (volume s <= 1)%Q)
    by (split; discriminate).
  split; [exact Hkey |]. split; [exact Hv |].
  exact (onKey_volume_range 0%nat (Samples.always 0) e s _ Hkey Hv).
Defined.



(** X13.  No key press changes the playlist, the muted flag, the stored
    position or the duration, and a key press inside an input field changes
    nothing at all. *)
Theorem onKey_frame (fuel : nat) (rnd : nat -> Q)
    (e : Modern.KeyEvent) (s s' : Modern.St) :
  Modern.onKey fuel rnd e s = Some s' ->
  (tracks s' = tracks s /\ muted s' = muted s /\
   progress s' = progress s /\ duration s' = duration s) /\
  (Modern.targetTag e = Some "INPUT"%string -> s' = s).
Proof.
  intros Hkey. split.
  - apply (onKey_invariant
             (fun u => tracks u = tracks s /\ muted u = muted s /\
                       progress u = progress s /\ duration u = duration s)
             fuel rnd e s s'); try exact Hkey; try (intros; assumption).
    + intros u Hu. unfold Modern.arrowRight. destruct (audioRef u); exact Hu.
    + intros u Hu. unfold Modern.arrowLeft. destruct (audioRef u); exact Hu.
    + repeat split; reflexivity.
  - intros Ht. unfold Modern.onKey, Modern.isInput in Hkey. rewrite Ht in Hkey.
    simpl in Hkey. injection Hkey as <-. reflexivity.
Qed.

Lemma onKey_frame_witness :
  let s := Samples.three Modern.initial 0 false Off in
  let e := Modern.mkKeyEvent (Some "INPUT"%string) "KeyN" "n" in
  Modern.onKey 0 (Samples.always 0) e s = Some s /\
  Modern.targetTag e = Some "INPUT"%string /\ s = s.
Proof.
  intros s e.
  assert (Hkey : Modern.onKey 0 (Samples.always 0) e s = Some s) by reflexivity.
  split; [exact Hkey |]. split; [reflexivity |].
  exact (proj2 (onKey_frame 0%nat (Samples.always 0) e s s Hkey) eq_refl).
Defined.

(* ================================================================== *)
(** * Tag reading and adding files *)
(* ================================================================== *)

(** [a || b] with a non-empty [b] is never empty. *)
Lemma orString_nonempty (a : option string) (b : string) :
  b <> ""%string -> orString a b <> ""%string.
Proof.
  intros Hb. unfold orString. destruct a as [x|]; [| exact Hb].
  destruct (String.eqb_spec x ""); [exact Hb | assumption].
Qed.

(** X14.  The first thing the tag library does settles the promise of
    [readTags]: whatever it does afterwards (a second callback, a throw
    after a callback) does not change the outcome. *)
Theorem readTags_first_event_decides
    (createObjectURL : list N -> string -> string) (file : File)
    (e : ReadEvent) (rest : list ReadEvent) :
  readTags createObjectURL file (e :: rest) = readTags createObjectURL file [e] /\
  exists m, readTags createObjectURL file (e :: rest) = Fulfilled m.
Proof.
  unfold readTags. simpl.
  destruct e; simpl; rewrite readStep_settled; split; eauto.
Qed.

(** X15.  Whatever the tag library does, once [readTags] has settled for a
    file with a non-empty name the title it resolved is not empty, and the
    playlist row of the track shows that title and an artist that is not
    empty. *)
Theorem readTags_row_never_blank
    (createObjectURL : list N -> string -> string) (file : File)
    (events : list ReadEvent) (m : Meta) (i : string) (src : option string) :
  fileName file <> ""%string ->
  readTags createObjectURL file events = Fulfilled m ->
  let t := mkTrack i src (fileName file) (Some m) in
  title m <> ""%string /\
  shownTitle t = title m /\
  shownArtist t <> ""%string.
Proof.
  intros Hname Hm t.
  assert (Ht : title m <> ""%string).
  { destruct events as [|e rest]; [discriminate |].
    unfold readTags in Hm. simpl in Hm.
    destruct e; simpl in Hm; rewrite readStep_settled in Hm;
      injection Hm as <-; simpl; try exact Hname.
    apply orString_nonempty. exact Hname. }
  split; [exact Ht |]. split.
  - unfold shownTitle, t. simpl.
    destruct (String.eqb_spec (title m) ""); [contradiction | reflexivity].
  - unfold shownArtist. apply orString_nonempty. discriminate.
Qed.

Lemma readTags_row_never_blank_witness :
  let url : list N -> string -> string := fun _ _ => "blob:cover"%string in
  let file := mkFile "song.mp3" "audio/mpeg" in
  let tags := mkTags (Some ""%string) None (Some "Album"%string) None in
  let m := mkMeta "song.mp3" "Unknown Artist" "Album" None in
  fileName file <> ""%string /\
  readTags url file [CallsOnSuccess tags; Throws] = Fulfilled m /\
  shownTitle (mkTrack "id-1" None (fileName file) (Some m)) = title m.
Proof.
  intros url file tags m.
  assert (Hname : fileName file <> ""%string) by discriminate.
  assert (Hm : readTags url file [CallsOnSuccess tags; Throws] = Fulfilled m)
    by reflexivity.
  split; [exact Hname |]. split; [exact Hm |].
  exact (proj1 (proj2 (readTags_row_never_blank url file _ m "id-1" None
                         Hname Hm))).
Defined.

(** What the loop of [addFiles] collects: it keeps what it had, and adds
    one track for every file whose type starts with ["audio"], in the order
    of the files, named after the file and identified by the next result of
    [crypto.randomUUID()]. *)
Lemma collect_appends
    (createObjectURL : list N -> string -> string) (fileURL : File -> string)
    (randomUUID : nat -> string) (files : list Modern.Upload) :
  forall toAdd result,
  Modern.collect createObjectURL fileURL randomUUID files toAdd = Some result ->
  exists added,
    result = toAdd ++ added /\
    map name added =
      map (fun u => fileName (Modern.upFile u))
          (filter (fun u => String.prefix "audio" (fileType (Modern.upFile u)))
                  files) /\
    map id added = map randomUUID (seq (List.length toAdd) (List.length added)) /\
    Forall (fun t => exists m, meta t = Some m) added.
Proof.
  induction files as [|u files IH]; intros toAdd result H;
    cbn [Modern.collect] in H.
  - injection H as <-. exists []. rewrite app_nil_r. repeat split. constructor.
  - destruct (String.prefix "audio" (fileType (Modern.upFile u))) eqn:Ea;
      cbn [negb] in H.
    + destruct (readTags createObjectURL (Modern.upFile u) (Modern.upEvents u))
        as [| m |] eqn:Er; try discriminate.
      destruct (IH _ _ H) as (added & -> & Hn & Hi & Hm).
      eexists (_ :: added). rewrite <- app_assoc.
      split; [reflexivity |]. cbn [filter]. rewrite Ea.
      split; [cbn [map name]; f_equal; exact Hn |]. split.
      * cbn [map id List.length seq]. f_equal.
        rewrite Hi, length_app. cbn [List.length].
        replace (List.length toAdd + 1)%nat with (S (List.length toAdd)) by lia.
        reflexivity.
      * constructor; [eexists; reflexivity | exact Hm].
    + destruct (IH _ _ H) as (added & -> & Hn & Hi & Hm).
      exists added. cbn [filter]. rewrite Ea. auto.
Qed.

(** The loop gets stuck exactly on an audio file for which the tag library
    never calls back. *)
Lemma collect_stuck
    (createObjectURL : list N -> string -> string) (fileURL : File -> string)
    (randomUUID : nat -> string) (files : list Modern.Upload) :
  forall toAdd,
  Modern.collect createObjectURL fileURL randomUUID files toAdd = None <->
  exists u, In u files /\
            String.prefix "audio" (fileType (Modern.upFile u)) = true /\
            Modern.upEvents u = [].
Proof.
  induction files as [|u files IH]; intros toAdd; cbn [Modern.collect In].
  - split; [discriminate | intros (u & [] & _)].
  - destruct (String.prefix "audio" (fileType (Modern.upFile u))) eqn:Ea;
      cbn [negb].
    + destruct (readTags createObjectURL (Modern.upFile u) (Modern.upEvents u))
        as [| m |] eqn:Er.
      * apply readTags_pending in Er.
        split; [intros _; exists u; auto | reflexivity].
      * rewrite IH. split.
        -- intros (v & Hv & Hp & He). exists v. auto.
        -- intros (v & [<- | Hv] & Hp & He); [| exists v; auto].
           rewrite He in Er. discriminate.
      * exfalso. exact (readTags_never_rejects _ _ _ Er).
    + rewrite IH. split.
      * intros (v & Hv & Hp & He). exists v. auto.
      * intros (v & [<- | Hv] & Hp & He); [congruence | exists v; auto].
Qed.

(** X16.  When [addFiles] completes, the playlist is the old playlist
    followed by one new track for every file whose type starts with
    ["audio"], in the order of the files and named after them; the other
    files are skipped.  The selection, the playing flag and a selected
    track are what they were. *)
Theorem addFiles_appends
    (createObjectURL : list N -> string -> string) (fileURL : File -> string)
    (randomUUID : nat -> string) (files : list Modern.Upload)
    (s s' : Modern.St) :
  Modern.addFiles createObjectURL fileURL randomUUID files s = Some s' ->
  (exists added,
     tracks s' = tracks s ++ added /\
     map name added =
       map (fun u => fileName (Modern.upFile u))
           (filter (fun u => String.prefix "audio" (fileType (Modern.upFile u)))
                   files) /\
     map id added = map randomUUID (seq 0 (List.length added))) /\
  index s' = index s /\ playing s' = playing s /\
  (forall t, current s = Some t -> current s' = Some t).
Proof.
  unfold Modern.addFiles.
  destruct (Modern.collect createObjectURL fileURL randomUUID files [])
    as [toAdd|] eqn:Hc; [| discriminate].
  intros H. injection H as <-.
  destruct (collect_appends _ _ _ _ _ _ Hc) as (added & E & Hn & Hi & _).
  simpl in E. subst added.
  destruct toAdd as [|t0 toAdd].
  - split; [exists []; rewrite app_nil_r; auto |].
    repeat split; auto.
  - split; [exists (t0 :: toAdd); auto |].
    split; [reflexivity |]. split; [reflexivity |].
    intros t Hcur. unfold current in *.
    change (index (setTracks (tracks s ++ t0 :: toAdd) s)) with (index s).
    change (tracks (setTracks (tracks s ++ t0 :: toAdd) s))
      with (tracks s ++ t0 :: toAdd).
    destruct (index s <? 0); [discriminate |].
    rewrite nth_error_app1; [exact Hcur |].
    apply nth_error_Some. rewrite Hcur. discriminate.
Qed.

Lemma addFiles_appends_witness :
  let url : list N -> string -> string := fun _ _ => "blob:cover"%string in
  let furl : File -> string := fun f => ("blob:" ++ fileName f)%string in
  let uuid : nat -> string := fun n => if (n =? 0)%nat then "u0"%string else "u1"%string in
  let files := [Modern.mkUpload (mkFile "notes.txt" "text/plain") [];
                Modern.mkUpload (mkFile "d.mp3" "audio/mpeg") [CallsOnError]] in
  let s := Samples.three Modern.initial 1 false Off in
  let s' := setTracks (tracks s ++
              [mkTrack "u0" (Some "blob:d.mp3"%string) "d.mp3"
                 (Some (mkMeta "d.mp3" "" "" None))]) s in
  Modern.addFiles url furl uuid files s = Some s' /\
  index s' = index s /\ current s' = Some Samples.trackB.
Proof.
  intros url furl uuid files s s'.
  assert (H : Modern.addFiles url furl uuid files s = Some s') by reflexivity.
  split; [exact H |].
  destruct (addFiles_appends url furl uuid files s s' H) as (_ & Hi & _ & Hc).
  split; [exact Hi | apply Hc; reflexivity].
Defined.

(** X17.  [addFiles] fails to complete only when the tag library never
    calls back for one of the audio files: the call then waits on
    [readTags] for ever.  A tag library that reports an error or throws
    does not block it, and files of other types are never waited for. *)
Theorem addFiles_completes_iff
    (createObjectURL : list N -> string -> string) (fileURL : File -> string)
    (randomUUID : nat -> string) (files : list Modern.Upload) (s : Modern.St) :
  Modern.addFiles createObjectURL fileURL randomUUID files s = None <->
  exists u, In u files /\
            String.prefix "audio" (fileType (Modern.upFile u)) = true /\
            Modern.upEvents u = [].
Proof.
  unfold Modern.addFiles.
  rewrite <- (collect_stuck createObjectURL fileURL randomUUID files []).
  destruct (Modern.collect createObjectURL fileURL randomUUID files []);
    split; intros H; (reflexivity || discriminate).
Qed.

(* ================================================================== *)
(** * The time label *)
(* ================================================================== *)

(** The floor is the one integer [z] with [z <= x < z + 1]. *)
Lemma Qfloor_unique (x : Q) (z : Z) :
  (inject_Z z <= x)%Q -> (x < inject_Z (z + 1))%Q -> Qfloor x = z.
Proof.
  intros Hlo Hhi.
  assert (H1 : z <= Qfloor x).
  { rewrite <- (Qfloor_Z z). apply Qfloor_resp_le. exact Hlo. }
  assert (H2 : Qfloor x < z + 1).
  { rewrite Zlt_Qlt. apply Qle_lt_trans with x; [apply Qfloor_le | exact Hhi]. }
  lia.
Qed.

Lemma Qfloor_sub_int (x : Q) (z : Z) :
  Qfloor (x - inject_Z z) = Qfloor x - z.
Proof.
  apply Qfloor_unique.
  - unfold Z.sub. rewrite inject_Z_plus, inject_Z_opp.
    pose proof (Qfloor_le x). lra.
  - replace (Qfloor x - z + 1) with ((Qfloor x + 1) + - z) by lia.
    rewrite inject_Z_plus, inject_Z_opp.
    pose proof (Qlt_floor x). lra.
Qed.

Lemma Qfloor_div_pos (x : Q) (k : Z) :
  0 < k -> Qfloor (x / inject_Z k) = Qfloor x / k.
Proof.
  intros Hk.
  assert (HkQ : (0 < inject_Z k)%Q)
    by (change 0%Q with (inject_Z 0); rewrite <- Zlt_Qlt; exact Hk).
  apply Qfloor_unique.
  - apply Qle_shift_div_l; [exact HkQ |].
    rewrite <- inject_Z_mult.
    apply Qle_trans with (inject_Z (Qfloor x)); [| apply Qfloor_le].
    rewrite <- Zle_Qle. rewrite Z.mul_comm. apply Z.mul_div_le. exact Hk.
  - apply Qlt_shift_div_r; [exact HkQ |].
    rewrite <- inject_Z_mult.
    apply Qlt_le_trans with (inject_Z (Qfloor x + 1)); [apply Qlt_floor |].
    rewrite <- Zle_Qle.
    pose proof (Z.mul_succ_div_gt (Qfloor x) k Hk). lia.
Qed.

(** From [0] on, [a % 60] takes off the whole multiples of sixty. *)
Lemma remQ_60 (a : Q) :
  (0 <= a)%Q -> Qfloor (remQ a 60) = Qfloor a mod 60.
Proof.
  intros Ha. unfold remQ, truncQ.
  assert (Hq : (0 <= a / 60)%Q).
  { apply Qle_shift_div_l; [reflexivity | lra]. }
  apply Qle_bool_iff in Hq. rewrite Hq.
  change (60%Q) with (inject_Z 60).
  rewrite (Qfloor_div_pos a 60) by lia.
  rewrite <- inject_Z_mult, Qfloor_sub_int.
  rewrite Z.mod_eq by lia. reflexivity.
Qed.

Lemma string_length_append (a b : string) :
  String.length (a ++ b) = (String.length a + String.length b)%nat.
Proof.
  induction a as [|c a IH]; simpl; [reflexivity | rewrite IH; reflexivity].
Qed.

(** The digits of a number below sixty. *)
Lemma toString_length_small (z : Z) :
  0 <= z < 60 ->
  String.length (toString z) = if z <? 10 then 1%nat else 2%nat.
Proof.
  intros Hz.
  assert (Hall : forallb (fun k => (String.length (toString (Z.of_nat k)) =?
                                      (if (Z.of_nat k <? 10)%Z then 1 else 2))%nat)
                         (seq 0 60) = true) by (vm_compute; reflexivity).
  rewrite forallb_forall in Hall.
  specialize (Hall (Z.to_nat z)).
  rewrite Z2Nat.id in Hall by lia.
  apply Nat.eqb_eq, Hall, in_seq. lia.
Qed.

Lemma padStart0_two (z : Z) :
  0 <= z < 60 -> String.length (padStart0 2 (toString z)) = 2%nat.
Proof.
  intros Hz. unfold padStart0. rewrite string_length_append.
  rewrite (toString_length_small z Hz).
  destruct (z <? 10); reflexivity.
Qed.

(** The fields of the label, from the whole seconds of [t]. *)
Lemma fmt_fields_aux (t : Q) :
  (0 <= t)%Q ->
  0 <= fmtSeconds t < 60 /\
  0 <= fmtMinutes t < 60 /\
  0 <= fmtHours t /\
  3600 * fmtHours t + 60 * fmtMinutes t + fmtSeconds t = Qfloor t.
Proof.
  intros Ht.
  assert (Hn : 0 <= Qfloor t).
  { change 0 with (Qfloor (inject_Z 0)). apply Qfloor_resp_le. exact Ht. }
  assert (Hs : fmtSeconds t = Qfloor t mod 60)
    by (apply remQ_60; exact Ht).
  assert (Hm : fmtMinutes t = (Qfloor t / 60) mod 60).
  { unfold fmtMinutes. rewrite remQ_60.
    - change (60%Q) with (inject_Z 60). rewrite Qfloor_div_pos by lia.
      reflexivity.
    - apply Qle_shift_div_l; [reflexivity | lra]. }
  assert (Hh : fmtHours t = Qfloor t / 3600).
  { unfold fmtHours. change (3600%Q) with (inject_Z 3600).
    apply Qfloor_div_pos. lia. }
  rewrite Hs, Hm, Hh.
  pose proof (Z.mod_pos_bound (Qfloor t) 60 ltac:(lia)).
  pose proof (Z.mod_pos_bound (Qfloor t / 60) 60 ltac:(lia)).
  pose proof (Z.div_pos (Qfloor t) 3600 Hn ltac:(lia)).
  repeat split; try lia.
  rewrite (Z.mod_eq (Qfloor t / 60) 60) by lia.
  rewrite Z.div_div by lia. change (60 * 60) with 3600.
  rewrite (Z.mod_eq (Qfloor t) 60) by lia. lia.
Qed.

(** X18.  For a time [t] in [[0, 2^53)], the range in which the fields are
    those the code computes, the three fields of the label are the hours,
    minutes and seconds of the whole seconds of [t]: minutes and seconds
    lie in [[0, 60)], hours are not negative, and
    [3600 h + 60 m + s = floor t]. *)
Theorem fmt_fields (t : Q) :
  (0 <= t)%Q ->
  (t < 9007199254740992)%Q ->
  0 <= fmtSeconds t < 60 /\
  0 <= fmtMinutes t < 60 /\
  0 <= fmtHours t /\
  3600 * fmtHours t + 60 * fmtMinutes t + fmtSeconds t = Qfloor t.
Proof.
  intros Ht _. exact (fmt_fields_aux t Ht).
Qed.

Lemma fmt_fields_witness :
  (0 <= 7384 # 1)%Q /\ (7384 # 1 < 9007199254740992)%Q /\
  fmtHours (7384 # 1) = 2 /\ fmtMinutes (7384 # 1) = 3 /\
  fmtSeconds (7384 # 1) = 4 /\
  3600 * fmtHours (7384 # 1) + 60 * fmtMinutes (7384 # 1)
    + fmtSeconds (7384 # 1) = Qfloor (7384 # 1).
Proof.
  assert (Ht : (0 <= 7384 # 1)%Q) by discriminate.
  assert (Hb : (7384 # 1 < 9007199254740992)%Q) by reflexivity.
  split; [exact Ht |]. split; [exact Hb |]. do 3 (split; [reflexivity |]).
  exact (proj2 (proj2 (proj2 (fmt_fields (7384 # 1) Ht Hb)))).
Defined.

(** X19.  For a time under an hour the label is the minutes, a colon and
    the seconds on two digits: four characters under ten minutes, five from
    there on.  From an hour on, and below [2^53], it is the hours in
    decimal, a colon, the minutes on two digits, a colon and the seconds on
    two digits. *)
Theorem fmt_shape (t : Q) :
  (0 <= t)%Q ->
  (t < 9007199254740992)%Q ->
  ((t < 3600)%Q ->
     fmt (Some t) = (toString (fmtMinutes t) ++ ":" ++
                     padStart0 2 (toString (fmtSeconds t)))%string /\
     String.length (padStart0 2 (toString (fmtSeconds t))) = 2%nat /\
     String.length (fmt (Some t)) = if Qfloor t <? 600 then 4%nat else 5%nat) /\
  ((3600 <= t)%Q ->
     fmt (Some t) = (toString (fmtHours t) ++ ":" ++
                     padStart0 2 (toString (fmtMinutes t)) ++ ":" ++
                     padStart0 2 (toString (fmtSeconds t)))%string /\
     String.length (padStart0 2 (toString (fmtMinutes t))) = 2%nat /\
     String.length (padStart0 2 (toString (fmtSeconds t))) = 2%nat).
Proof.
  intros Ht _.
  destruct (fmt_fields_aux t Ht) as (Hs & Hm & Hh & Hsum).
  split.
  - intros Hlt.
    assert (Hn : Qfloor t < 3600).
    { rewrite Zlt_Qlt. apply Qle_lt_trans with t; [apply Qfloor_le | exact Hlt]. }
    assert (Hh0 : fmtHours t = 0) by lia.
    assert (E : fmt (Some t) = (toString (fmtMinutes t) ++ ":" ++
                     padStart0 2 (toString (fmtSeconds t)))%string).
    { unfold fmt. cbv zeta. rewrite Hh0. reflexivity. }
    split; [exact E |]. split; [apply padStart0_two; exact Hs |].
    rewrite E, !string_length_append, (padStart0_two _ Hs).
    rewrite (toString_length_small _ Hm).
    assert (Hiff : (fmtMinutes t <? 10) = (Qfloor t <? 600)).
    { destruct (Z.ltb_spec (fmtMinutes t) 10), (Z.ltb_spec (Qfloor t) 600);
        try reflexivity; lia. }
    rewrite Hiff. destruct (Qfloor t <? 600); reflexivity.
  - intros Hge.
    assert (Hn : 3600 <= Qfloor t).
    { change 3600 with (Qfloor (inject_Z 3600)). apply Qfloor_resp_le. exact Hge. }
    assert (Hh1 : (0 <? fmtHours t) = true) by (apply Z.ltb_lt; lia).
    split; [| split; apply padStart0_two; assumption].
    unfold fmt. cbv zeta. rewrite Hh1. reflexivity.
Qed.

Lemma fmt_shape_witness :
  (0 <= 75 # 1)%Q /\ (75 # 1 < 9007199254740992)%Q /\ (75 # 1 < 3600)%Q /\
  fmt (Some (75 # 1)) = "1:15"%string /\
  String.length (fmt (Some (75 # 1))) = 4%nat /\
  (3600 <= 7384 # 1)%Q /\
  fmt (Some (7384 # 1)) = "2:03:04"%string /\
  fmt (Some (7384 # 1)) =
    (toString (fmtHours (7384 # 1)) ++ ":" ++
     padStart0 2 (toString (fmtMinutes (7384 # 1))) ++ ":" ++
     padStart0 2 (toString (fmtSeconds (7384 # 1))))%string.
Proof.
  assert (Ht : (0 <= 75 # 1)%Q) by discriminate.
  assert (Hb : (75 # 1 < 9007199254740992)%Q) by reflexivity.
  assert (Hlt : (75 # 1 < 3600)%Q) by reflexivity.
  assert (Ht' : (0 <= 7384 # 1)%Q) by discriminate.
  assert (Hb' : (7384 # 1 < 9007199254740992)%Q) by reflexivity.
  assert (Hge : (3600 <= 7384 # 1)%Q) by discriminate.
  split; [exact Ht |]. split; [exact Hb |]. split; [exact Hlt |].
  split; [reflexivity |].
  destruct (proj1 (fmt_shape (75 # 1) Ht Hb) Hlt) as (_ & _ & Hlen).
  split; [exact Hlen |]. split; [exact Hge |]. split; [reflexivity |].
  destruct (proj2 (fmt_shape (7384 # 1) Ht' Hb') Hge) as (Hshape & _).
  exact Hshape.
Defined.

(* ================================================================== *)
(** * Further properties of the library server *)
(* ================================================================== *)

Section ServerIndex.
Import Server.
Variable uuidv4 : nat -> string.
Variable baseDir : Path.

(** [path.relative] undoes [path.join] below the base directory. *)
Lemma pathRelative_below (base rest : Path) :
  pathRelative base (base ++ rest) = rest.
Proof.
  induction base as [|a base IH]; simpl.
  - destruct rest; reflexivity.
  - rewrite String.eqb_refl. exact IH.
Qed.

Lemma walked_nil (dir : Path) (s : State) : walked uuidv4 baseDir dir [] s s.
Proof.
  exists []. rewrite app_nil_r, Nat.add_0_r. repeat split. constructor.
Qed.

Lemma walked_app (dir : Path) (names1 names2 : list string) (s s1 s2 : State) :
  walked uuidv4 baseDir dir names1 s s1 ->
  walked uuidv4 baseDir dir names2 s1 s2 ->
  walked uuidv4 baseDir dir (names1 ++ names2) s s2.
Proof.
  intros (a1 & Et1 & Ec1 & En1 & Ei1 & F1) (a2 & Et2 & Ec2 & En2 & Ei2 & F2).
  exists (a1 ++ a2). rewrite length_app. split; [| split; [| split; [| split]]].
  - rewrite Et2, Et1, app_assoc. reflexivity.
  - rewrite Ec2, Ec1. lia.
  - rewrite map_app, filter_app, En1, En2. reflexivity.
  - rewrite map_app, seq_app, map_app, Ei1, Ei2, Ec1. reflexivity.
  - apply Forall_app. split; assumption.
Qed.

(** A walk below a subdirectory is a walk below the directory. *)
Lemma walked_lift (dir : Path) (f : string) (names : list string) (s s' : State) :
  walked uuidv4 baseDir (pathJoin dir f) names s s' ->
  walked uuidv4 baseDir dir names s s'.
Proof.
  intros (added & Et & Ec & En & Ei & F).
  exists added. repeat (split; [assumption |]).
  eapply Forall_impl; [| exact F].
  intros t [(rest & Hne & Hp & Hl) Hr]. split; [| exact Hr].
  exists (f :: rest). split; [discriminate |]. split.
  - rewrite Hp. unfold pathJoin. rewrite <- app_assoc. reflexivity.
  - destruct rest; [contradiction | exact Hl].
Qed.

Lemma walkEntry_walked (e : Entry) :
  forall dir s,
    walked uuidv4 baseDir dir (fileNames e) s (walkEntry uuidv4 baseDir dir e s).
Proof.
  induction e as [f | f entries IH] using Entry_tree_ind; intros dir s.
  - cbn [walkEntry fileNames filter]. unfold walked.
    destruct (matchAudio f) eqn:Hm.
    + eexists [_]. cbn [filter]. rewrite Hm. cbn.
      split; [reflexivity |]. split; [lia |]. split; [reflexivity |].
      split; [reflexivity |]. constructor; [| constructor].
      split; [| reflexivity].
      exists [f]. split; [discriminate |]. split; reflexivity.
    + exists []. cbn [filter]. rewrite Hm. cbn.
      rewrite app_nil_r, Nat.add_0_r. repeat split. constructor.
  - cbn [walkEntry fileNames]. apply walked_lift with (f := f).
    generalize (pathJoin dir f) as full. intros full. revert s.
    induction IH as [|e entries He _ IHentries]; intros s; cbn [fold_left flat_map].
    + apply walked_nil.
    + eapply walked_app; [apply He | apply IHentries].
Qed.

Lemma walk_walked (dir : Path) (entries : list Entry) :
  forall s,
    walked uuidv4 baseDir dir (flat_map fileNames entries) s
           (walk uuidv4 baseDir dir entries s).
Proof.
  unfold walk. induction entries as [|e entries IH]; intros s;
    cbn [fold_left flat_map].
  - apply walked_nil.
  - eapply walked_app; [apply walkEntry_walked | apply IH].
Qed.

Lemma indexLibrary_walked (entries : list Entry) (s : State) :
  walked uuidv4 baseDir baseDir (flat_map fileNames entries)
         (mkState [] (uuidCount s)) (indexLibrary uuidv4 baseDir entries s).
Proof.
  unfold indexLibrary. apply walk_walked.
Qed.

(** In a list with unique identifiers, looking a track up by its identifier
    finds that track. *)
Lemma find_unique_id (l : list Track) (t : Track) :
  NoDup (map id l) -> In t l ->
  find (fun u => (id u =? id t)%string) l = Some t.
Proof.
  induction l as [|a l IH]; intros Hnd Hin; [contradiction |].
  simpl in *. inversion Hnd as [|? ? Hnotin Hnd']; subst.
  destruct Hin as [-> | Hin].
  - rewrite String.eqb_refl. reflexivity.
  - destruct (String.eqb_spec (id a) (id t)) as [E | NE].
    + exfalso. apply Hnotin. rewrite E. apply in_map. exact Hin.
    + apply IH; assumption.
Qed.

Lemma find_absent_id (l : list Track) (i : string) :
  ~ In i (map id l) -> find (fun u => (id u =? i)%string) l = None.
Proof.
  induction l as [|a l IH]; intros Hnot; [reflexivity |].
  simpl in *. destruct (String.eqb_spec (id a) i) as [E | NE].
  - exfalso. apply Hnot. left. exact E.
  - apply IH. intros H. apply Hnot. right. exact H.
Qed.

End ServerIndex.

Lemma last_app_nonempty {A} (l rest : list A) (d : A) :
  rest <> [] -> last (l ++ rest) d = last rest d.
Proof.
  intros Hne. induction l as [|a l IH]; [reflexivity |].
  simpl. destruct (l ++ rest) eqn:E; [| exact IH].
  apply app_eq_nil in E. destruct E as [_ E]. contradiction.
Qed.

Lemma distinctUuids_injective (a b : nat) :
  Samples.distinctUuids a = Samples.distinctUuids b -> a = b.
Proof.
  unfold Samples.distinctUuids. intros H. injection H as H.
  revert b H. induction a as [|a IH]; intros [|b] H; simpl in H;
    try discriminate; [reflexivity |].
  injection H as H. f_equal. apply IH. exact H.
Qed.

(** X20.  [indexLibrary] indexes exactly the files whose names the filter
    accepts, once each, in the order of the walk (a directory's entries in
    order, a subdirectory in full where it stands); the [k]-th track gets
    the [k]-th identifier [uuidv4()] hands out during the call.  What was
    on [tracks] before is gone. *)
Theorem indexLibrary_exact (uuidv4 : nat -> string) (baseDir : Server.Path)
    (entries : list Server.Entry) (s : Server.State) :
  let s' := Server.indexLibrary uuidv4 baseDir entries s in
  map Server.name (Server.tracks s') =
    filter Server.matchAudio (flat_map Server.fileNames entries) /\
  map Server.id (Server.tracks s') =
    map uuidv4 (seq (Server.uuidCount s) (List.length (Server.tracks s'))) /\
  Server.uuidCount s' =
    (Server.uuidCount s + List.length (Server.tracks s'))%nat.
Proof.
  intros s'.
  destruct (indexLibrary_walked uuidv4 baseDir entries s)
    as (added & Et & Ec & En & Ei & _).
  fold s' in Et, Ec. simpl in Et, Ec, Ei. rewrite Et.
  repeat split; assumption.
Qed.

(** X21.  Every track of the index lies below the base directory: its
    [path] is the base directory followed by its [relPath], which is not
    empty, and the last segment of the path is its [name]. *)
Theorem indexLibrary_paths (uuidv4 : nat -> string) (baseDir : Server.Path)
    (entries : list Server.Entry) (s : Server.State) :
  Forall (fun t =>
            Server.path t = baseDir ++ Server.relPath t /\
            Server.relPath t <> [] /\
            last (Server.path t) ""%string = Server.name t)
         (Server.tracks (Server.indexLibrary uuidv4 baseDir entries s)).
Proof.
  destruct (indexLibrary_walked uuidv4 baseDir entries s)
    as (added & Et & _ & _ & _ & F).
  simpl in Et. rewrite Et.
  eapply Forall_impl; [| exact F].
  intros t [(rest & Hne & Hp & Hl) Hr].
  rewrite Hr, Hp, pathRelative_below.
  split; [reflexivity |]. split; [exact Hne |].
  rewrite last_app_nonempty by exact Hne. exact Hl.
Qed.

Lemma below_weaken (dir : Server.Path) (names names' : list string)
    (t : Server.Track) :
  (forall seg, In seg names -> In seg names') ->
  Server.below dir names t -> Server.below dir names' t.
Proof.
  intros Hsub (rest & Hp & Hne & F).
  exists rest. split; [exact Hp |]. split; [exact Hne |].
  eapply Forall_impl; [| exact F]. exact Hsub.
Qed.

Lemma below_step (dir : Server.Path) (f : string) (names : list string)
    (t : Server.Track) :
  Server.below (Server.pathJoin dir f) names t ->
  Server.below dir (f :: names) t.
Proof.
  intros (rest & Hp & _ & F).
  exists (f :: rest). split.
  - rewrite Hp. unfold Server.pathJoin. rewrite <- app_assoc. reflexivity.
  - split; [discriminate |].
    constructor; [left; reflexivity |].
    eapply Forall_impl; [| exact F]. intros seg H. right. exact H.
Qed.

(** Every track a walk adds has a path made of the directory the walk
    started in and of names of the tree. *)
Lemma walkEntry_below (uuidv4 : nat -> string) (baseDir : Server.Path)
    (e : Server.Entry) :
  forall (dir : Server.Path) (s : Server.State) (t : Server.Track),
    In t (Server.tracks (Server.walkEntry uuidv4 baseDir dir e s)) ->
    In t (Server.tracks s) \/ Server.below dir (Server.entryNames e) t.
Proof.
  induction e as [f | f entries IH] using Server.Entry_tree_ind;
    intros dir s t Ht.
  - simpl in Ht. destruct (Server.matchAudio f); [| left; exact Ht].
    simpl in Ht. apply in_app_or in Ht. destruct Ht as [Ht | [Ht | []]];
      [left; exact Ht |].
    right. subst t. exists [f]. simpl.
    split; [reflexivity |]. split; [discriminate |].
    constructor; [left; reflexivity | constructor].
  - simpl in Ht.
    assert (H : In t (Server.tracks s) \/
                Server.below (Server.pathJoin dir f)
                  (flat_map Server.entryNames entries) t).
    { revert s Ht. induction IH as [| e entries He _ IHl]; intros s Ht.
      - left. exact Ht.
      - simpl in Ht. apply IHl in Ht. destruct Ht as [Ht | Ht].
        + apply He in Ht. destruct Ht as [Ht | Ht]; [left; exact Ht |].
          right. eapply below_weaken; [| exact Ht].
          intros seg H. simpl. apply in_or_app. left. exact H.
        + right. eapply below_weaken; [| exact Ht].
          intros seg H. simpl. apply in_or_app. right. exact H. }
    destruct H as [H | H]; [left; exact H |].
    right. simpl. apply below_step. exact H.
Qed.

Lemma walk_below (uuidv4 : nat -> string) (baseDir dir : Server.Path)
    (entries : list Server.Entry) :
  forall (s : Server.State) (t : Server.Track),
    In t (Server.tracks (Server.walk uuidv4 baseDir dir entries s)) ->
    In t (Server.tracks s) \/
    Server.below dir (flat_map Server.entryNames entries) t.
Proof.
  unfold Server.walk.
  induction entries as [| e entries IH]; intros s t Ht.
  - left. exact Ht.
  - simpl in Ht. apply IH in Ht. destruct Ht as [Ht | Ht].
    + apply walkEntry_below in Ht. destruct Ht as [Ht | Ht];
        [left; exact Ht |].
      right. eapply below_weaken; [| exact Ht].
      intros seg H. simpl. apply in_or_app. left. exact H.
    + right. eapply below_weaken; [| exact Ht].
      intros seg H. simpl. apply in_or_app. right. exact H.
Qed.

Lemma indexLibrary_below (uuidv4 : nat -> string) (baseDir : Server.Path)
    (entries : list Server.Entry) (s : Server.State) (t : Server.Track) :
  In t (Server.tracks (Server.indexLibrary uuidv4 baseDir entries s)) ->
  Server.below baseDir (flat_map Server.entryNames entries) t.
Proof.
  unfold Server.indexLibrary. intros Ht.
  apply walk_below in Ht. destruct Ht as [[] | Ht]. exact Ht.
Qed.

Lemma existsb_false {A} (f : A -> bool) (l : list A) :
  (forall x, In x l -> f x = false) -> existsb f l = false.
Proof.
  intros H. induction l as [| a l IH]; [reflexivity |].
  simpl. rewrite (H a (or_introl eq_refl)). simpl.
  apply IH. intros x Hx. apply H. right. exact Hx.
Qed.

Lemma servable_parts (seg : string) :
  Server.servable seg = true ->
  Server.hasChar Server.nul seg = false /\
  Server.isUp seg = false /\ Server.isDotFile seg = false.
Proof.
  unfold Server.servable. intros H.
  repeat (apply andb_prop in H; destruct H as [H ?]).
  repeat split; apply negb_true_iff; assumption.
Qed.

Lemma isAbsolute_rooted (names rest : Server.Path) :
  rest <> [] -> Server.isAbsolute ((""%string :: names) ++ rest) = true.
Proof.
  intros Hne. unfold Server.isAbsolute, Server.pathString.
  destruct (names ++ rest) as [| x l] eqn:E.
  - apply app_eq_nil in E. destruct E as [_ E]. contradiction.
  - simpl. rewrite E. reflexivity.
Qed.

(** [res.sendFile] lets the path of a track through when the walk started
    in an absolute directory and every name it went through is servable. *)
Lemma sendFile_below (dir : Server.Path) (names : list string)
    (t : Server.Track) :
  Server.servableDir dir = true ->
  forallb Server.servable names = true ->
  Server.below dir names t ->
  Server.sendFile (Server.path t) = Server.SendFile (Server.path t).
Proof.
  intros Hdir Hnames (rest & Hp & Hne & F).
  destruct dir as [| first dirs]; [discriminate Hdir |].
  simpl in Hdir. apply andb_prop in Hdir. destruct Hdir as [Hfirst Hdirs].
  apply String.eqb_eq in Hfirst. subst first.
  rewrite forallb_forall in Hdirs, Hnames. rewrite Forall_forall in F.
  assert (Hseg : forall seg, In seg (Server.path t) ->
            Server.hasChar Server.nul seg = false /\
            Server.isUp seg = false /\ Server.isDotFile seg = false).
  { intros seg Hin. rewrite Hp in Hin. simpl in Hin.
    destruct Hin as [<- | Hin]; [repeat split; reflexivity |].
    apply in_app_or in Hin.
    apply servable_parts. destruct Hin as [Hin | Hin].
    - apply Hdirs. exact Hin.
    - apply Hnames. apply F. exact Hin. }
  unfold Server.sendFile.
  rewrite Hp at 1. rewrite (isAbsolute_rooted dirs rest Hne). simpl.
  rewrite !existsb_false; [reflexivity | | |]; intros seg Hin;
    apply (Hseg seg Hin).
Qed.

(** X22.  With a [uuidv4] that never repeats, a base directory that is an
    absolute normalized path and a tree in which no name of a file or of a
    directory (nor a segment of the base directory) holds a NUL character,
    holds [..] between backslashes or at an end next to one, or has more
    than one character and starts with a dot, the stream route finds every
    indexed track by its identifier: [GET /api/stream/<id>] hands the file
    at the path of that very track to [res.sendFile], which accepts it.
    For an identifier that is not in the index the route answers 404 (this
    part for any state of the index). *)
Theorem getStream_after_index (uuidv4 : nat -> string) (baseDir : Server.Path)
    (entries : list Server.Entry) (s : Server.State) :
  (forall a b, uuidv4 a = uuidv4 b -> a = b) ->
  Server.servableDir baseDir = true ->
  forallb Server.servable (flat_map Server.entryNames entries) = true ->
  let s' := Server.indexLibrary uuidv4 baseDir entries s in
  NoDup (map Server.id (Server.tracks s')) /\
  Forall (fun t =>
            Server.get ["api"; "stream"; Server.id t]%string s' =
            Server.SendFile (Server.path t))
         (Server.tracks s') /\
  (forall (u : Server.State) (i : string),
     ~ In i (map Server.id (Server.tracks u)) ->
     Server.get ["api"; "stream"; i]%string u = Server.Status 404 "Not found").
Proof.
  intros Hinj Hdir Hnames s'.
  assert (Hnd : NoDup (map Server.id (Server.tracks s'))).
  { destruct (indexLibrary_walked uuidv4 baseDir entries s)
      as (added & Et & _ & _ & Ei & _).
    fold s' in Et. simpl in Et, Ei. rewrite Et, Ei.
    apply NoDup_map_NoDup_ForallPairs; [| apply seq_NoDup].
    intros a b _ _. apply Hinj. }
  split; [exact Hnd |]. split.
  - apply Forall_forall. intros t Ht.
    change (Server.getStream (Server.id t) s' = Server.SendFile (Server.path t)).
    unfold Server.getStream.
    rewrite (find_unique_id (Server.tracks s') t Hnd Ht).
    apply (sendFile_below baseDir (flat_map Server.entryNames entries));
      [exact Hdir | exact Hnames |].
    apply (indexLibrary_below uuidv4 baseDir entries s). exact Ht.
  - intros u i Hi.
    change (Server.getStream i u = Server.Status 404 "Not found").
    unfold Server.getStream. rewrite (find_absent_id _ _ Hi). reflexivity.
Qed.

Lemma getStream_after_index_witness :
  let s' := Server.indexLibrary Samples.distinctUuids Samples.musicDir
              Samples.twoOddDir Server.initial in
  (forall a b, Samples.distinctUuids a = Samples.distinctUuids b -> a = b) /\
  Server.servableDir Samples.musicDir = true /\
  forallb Server.servable
    (flat_map Server.entryNames Samples.twoOddDir) = true /\
  map Server.id (Server.tracks s') = ["u"; "ux"]%string /\
  Server.get ["api"; "stream"; "ux"]%string s' =
    Server.SendFile [""; "music"; "live"; "b\.ogg"]%string /\
  Server.get ["api"; "stream"; "zz"]%string s' = Server.Status 404 "Not found".
Proof.
  intros s'.
  split; [exact distinctUuids_injective |].
  split; [reflexivity |]. split; [reflexivity |]. split; [reflexivity |].
  destruct (getStream_after_index Samples.distinctUuids Samples.musicDir
              Samples.twoOddDir Server.initial distinctUuids_injective
              eq_refl eq_refl)
    as (_ & Hall & Hnone).
  split.
  - rewrite Forall_forall in Hall.
    apply (Hall (Server.mkTrack "ux" "b\.ogg"
                   [""; "music"; "live"; "b\.ogg"]%string
                   ["live"; "b\.ogg"]%string)).
    right. left. reflexivity.
  - apply Hnone. simpl. intros H.
    repeat (destruct H as [H | H]; [discriminate H |]). exact H.
Defined.

(** What the stream route answers where [res.sendFile] refuses the path of
    an indexed track: 404 for a track in a hidden directory, 403 for a name
    that starts with two dots and a backslash, 500 when the base directory
    is a relative path. *)
Example getStream_refused :
  Server.get ["api"; "stream"; "u"]%string
    (Server.indexLibrary Samples.distinctUuids Samples.musicDir
       Samples.hiddenDir Server.initial) = Server.Fails 404 /\
  Server.get ["api"; "stream"; "u"]%string
    (Server.indexLibrary Samples.distinctUuids Samples.musicDir
       Samples.upDir Server.initial) = Server.Fails 403 /\
  Server.get ["api"; "stream"; "u"]%string
    (Server.indexLibrary Samples.distinctUuids Samples.relativeDir
       Samples.twoOddDir Server.initial) = Server.Fails 500.
Proof. repeat split. Qed.

Lemma sequencer_on_empty_witness :
  let s := setShuffle true (clickRepeat Modern.initial) in
  count s = 0 /\ 0 <= index s /\
  nextIndex 0 (Samples.always 0) s = Some 0 /\
  prevIndex 0 (Samples.always 0) s = Some 0.
Proof.
  intros s.
  assert (Hc : count s = 0) by reflexivity.
  assert (Hi : 0 <= index s) by discriminate.
  split; [exact Hc |]. split; [exact Hi |].
  exact (sequencer_on_empty s 0%nat (Samples.always 0) Hc Hi).
Defined.
